(** * empire-fs: directory scan engine, lock-step reader, file-system facade

    A shallow embedding of the parts of [efs] that the specification's
    testable properties talk about:

    - [efs/scan/scan.py]: [scan_directory], [PredefinedCallbacks],
      [ConfigurableCallbacks];
    - [efs/io_/read_swarm.py]: [ReadSwarm];
    - [efs/file_system/_fs.py]: [is_file], [is_link],
      [get_next_available_file_name];
    - [efs/path/path_class.py]: [Path], [PathLike], [from_path_like].

    Python exceptions are an explicit error monad ([result]); Python values
    that flow through untyped positions (callback results, the fallback of
    the error decorator) are a small universe [value]. *)

#[local] Set Warnings "-register-all".
From Stdlib Require Import ZArith Lia Ascii String.
From stdpp Require Import base option list strings pretty gmap.

Open Scope string_scope.
Open Scope list_scope.

(** ** Python values, exceptions and results *)

(** The Python values that reach the positions the source leaves untyped
    ([ScanDirectoryResult] is an unconstrained [TypeVar]). *)
Inductive value : Type :=
  | VNone
  | VBool (b : bool)
  | VStr (s : string)
  | VList (items : list value).

(** The exception classes the modelled code can meet. *)
Inductive exn : Type :=
  | FileNotFoundError
  | NotADirectoryError
  | PermissionError
  | TypeError
  | ValueError
  | OverflowError.

(** A call either returns or raises. *)
Inductive result (A : Type) : Type :=
  | Return (a : A)
  | Raise (e : exn).
Arguments Return {A} a.
Arguments Raise {A} e.

#[export] Instance result_ret : MRet result := fun A a => Return a.
#[export] Instance result_bind : MBind result := fun A B f m =>
  match m with
  | Return a => f a
  | Raise e => Raise e
  end.

(** [x is not None] *)
Definition is_not_None (v : value) : bool :=
  match v with
  | VNone => false
  | _ => true
  end.

(** ** The error decorator *)

(** [OnError] of [empire_commons.on_error]: the policies the spec names. *)
Inductive OnError : Type := IGNORE | LOG | RAISE.

(** Modelled from the spec: the decorator [catch] of the external package
    [empire_commons.on_error] (spec, section 7: "on failure, log via the
    reporting collaborator and return a safe default ... rather than raising,
    unless the caller has explicitly escalated the policy to raise").  The
    decorated call yields its outcome and the errors handed to the logger. *)
Definition catch {A : Type} (default_on_error_behavior : OnError)
    (value_to_return_on_error : A) (call : result A) : result A * list exn :=
  match call with
  | Return a => (Return a, [])
  | Raise e =>
      match default_on_error_behavior with
      | IGNORE => (Return value_to_return_on_error, [])
      | LOG => (Return value_to_return_on_error, [e])
      | RAISE => (Raise e, [])
      end
  end.

(** ** [efs.path.path_class]: [Path], [PathLike], [from_path_like] *)

Record Path : Type := { _path : string }.

Inductive PathLike : Type :=
  | PathLikeStr (s : string)
  | PathLikePath (p : Path).

Definition from_path_like (path : PathLike) : string :=
  match path with
  | PathLikePath p => _path p
  | PathLikeStr s => s
  end.

Coercion PathLikeStr : string >-> PathLike.

(** ** Strings *)

Module Str.

(** [s.startswith(prefix)] *)
Fixpoint startswith (s prefix : string) {struct prefix} : bool :=
  match prefix, s with
  | EmptyString, _ => true
  | String _ _, EmptyString => false
  | String p prefix', String c s' =>
      if Ascii.eqb c p then startswith s' prefix' else false
  end.

(** [s.endswith(suffix)]: some tail of [s], [s] itself included, is
    [suffix]. *)
Fixpoint endswith (s suffix : string) : bool :=
  if String.eqb s suffix then true
  else
    match s with
    | EmptyString => false
    | String _ s' => endswith s' suffix
    end.

End Str.

(** ** The host's directory tree *)

(** What the host shows under a directory: regular files, directories whose
    content can be listed, and directories on which [os.scandir] raises
    (no permission, or removed after the parent was listed). *)
Inductive node : Type :=
  | File (name : string)
  | Dir (name : string) (entries : list node)
  | BrokenDir (name : string) (e : exn).

Definition node_name (f : node) : string :=
  match f with
  | File n | Dir n _ | BrokenDir n _ => n
  end.

Definition node_is_dir (f : node) : bool :=
  match f with
  | File _ => false
  | Dir _ _ | BrokenDir _ _ => true
  end.

(** The host maps the path given to the top-level [os.scandir] to what is
    there, if anything. *)
Definition host : Type := string → option node.

(** [os.path.join(a, b)] on a POSIX host. *)
Definition os_path_join (a b : string) : string :=
  if Str.startswith b "/" then b
  else if bool_decide (a = "") || Str.endswith a "/" then a +:+ b
  else a +:+ "/" +:+ b.

(** [os.DirEntry]: the attributes the callbacks read. *)
Record DirEntry : Type := {
  name : string;
  path : string;
  is_dir : bool
}.

(** The entry [os.scandir(path_)] yields for a child [f]. *)
Definition dir_entry (path_ : string) (f : node) : DirEntry :=
  {| name := node_name f;
     path := os_path_join path_ (node_name f);
     is_dir := node_is_dir f |}.

(** Every directory of the tree below [d], [d] included, can be listed. *)
Fixpoint listable (d : node) : bool :=
  match d with
  | File _ => true
  | Dir _ entries => forallb listable entries
  | BrokenDir _ _ => false
  end.

(** The number of entries in the tree below [d], at every depth. *)
Fixpoint entries_below (d : node) : nat :=
  match d with
  | File _ => 0
  | Dir _ entries => list_sum (map (fun f => S (entries_below f)) entries)
  | BrokenDir _ _ => 0
  end.

(** The paths [os.scandir] gives the entries of the tree below [d], which
    is at [path_]: the entries of a directory in the host's order, those of
    a subdirectory before the subdirectory itself. *)
Fixpoint paths_below (path_ : string) (d : node) : list string :=
  match d with
  | File _ => []
  | Dir _ entries =>
      flat_map (fun f => paths_below (os_path_join path_ (node_name f)) f
                         ++ [os_path_join path_ (node_name f)]) entries
  | BrokenDir _ _ => []
  end.


(** ** [efs.scan.scan] *)

Module Scan.

(** [**on_entry_found_callback_kwargs] *)
Definition kwargs : Type := list (string * value).

(** [Callable[[str, bool, os.DirEntry, dict], ScanDirectoryResult]];
    a callback may raise. *)
Definition callback : Type :=
  string → bool → DirEntry → kwargs → result value.

Module PredefinedCallbacks.

Definition directories_only : callback :=
  fun entry_path is_directory dir_entry kwargs_dict =>
    Return (if is_directory then VStr entry_path else VNone).

Definition files_only : callback :=
  fun entry_path is_directory dir_entry kwargs_dict =>
    Return (if negb is_directory then VStr entry_path else VNone).

Definition file_names_only : callback :=
  fun entry_path is_directory dir_entry kwargs_dict =>
    Return (if negb is_directory then VStr (name dir_entry) else VNone).

End PredefinedCallbacks.

(** The body of the [for f in os.scandir(path_)] loop of [_recursion],
    over the recursive call [rec] and the list [results] built so far. *)
Section Loop.
Variable recursive : bool.
Variable on_entry_found_callback : callback.
Variable on_entry_found_callback_kwargs : kwargs.
Variable rec : string → node → result (list value).
Variable path_ : string.

Definition visit (results : list value) (f : node) : result (list value) :=
  let entry := dir_entry path_ f in
  results ← (if recursive && is_dir entry
             then sub ← rec (path entry) f; mret (results ++ sub)
             else mret results);
  result ← on_entry_found_callback (path entry) (is_dir entry) entry
             on_entry_found_callback_kwargs;
  mret (if is_not_None result then results ++ [result] else results).

Fixpoint for_entries (fs : list node) (results : list value)
  : result (list value) :=
  match fs with
  | [] => mret results
  | f :: fs' => results ← visit results f; for_entries fs' results
  end.
End Loop.

(** [_recursion(path_)], where [d] is what the host has at [path_]:
    [os.scandir] raises on a regular file and on a directory that cannot be
    listed, and otherwise enumerates the entries in the host's order. *)
Fixpoint _recursion (recursive : bool) (cb : callback) (kw : kwargs)
    (path_ : string) (d : node) {struct d} : result (list value) :=
  match d with
  | File _ => Raise NotADirectoryError
  | BrokenDir _ e => Raise e
  | Dir _ entries =>
      for_entries recursive cb kw (_recursion recursive cb kw) path_ entries []
  end.

(** The traversal once more, keeping what Python drops when an exception
    unwinds the frames of [_recursion]: the results appended so far, in
    traversal order (those of an interrupted inner frame included), and the
    exception that stopped the traversal, if one did. *)
Section Traced.
Variable recursive : bool.
Variable on_entry_found_callback : callback.
Variable on_entry_found_callback_kwargs : kwargs.
Variable rec : string → node → list value * option exn.
Variable path_ : string.

Definition visit_traced (f : node) : list value * option exn :=
  let entry := dir_entry path_ f in
  let '(sub, raised) :=
    if recursive && is_dir entry then rec (path entry) f else ([], None) in
  match raised with
  | Some e => (sub, Some e)
  | None =>
      match on_entry_found_callback (path entry) (is_dir entry) entry
              on_entry_found_callback_kwargs with
      | Raise e => (sub, Some e)
      | Return result =>
          (if is_not_None result then sub ++ [result] else sub, None)
      end
  end.

Fixpoint for_entries_traced (fs : list node) : list value * option exn :=
  match fs with
  | [] => ([], None)
  | f :: fs' =>
      let '(here, raised) := visit_traced f in
      match raised with
      | Some e => (here, Some e)
      | None =>
          let '(later, raised') := for_entries_traced fs' in
          (here ++ later, raised')
      end
  end.
End Traced.

Fixpoint accumulated (recursive : bool) (cb : callback) (kw : kwargs)
    (path_ : string) (d : node) {struct d} : list value * option exn :=
  match d with
  | File _ => ([], Some NotADirectoryError)
  | BrokenDir _ e => ([], Some e)
  | Dir _ entries =>
      for_entries_traced recursive cb kw (accumulated recursive cb kw) path_
        entries
  end.

(** What the frame of [_recursion] does with a traced traversal: it returns
    the results, or the exception propagates and the results are lost. *)
Definition outcome (t : list value * option exn) : result (list value) :=
  match t with
  | (l, None) => Return l
  | (_, Some e) => Raise e
  end.

(** The top-level [os.scandir] on a path the host does not have. *)
Definition at_path (h : host) (path_ : string) : result node :=
  match h path_ with
  | Some d => Return d
  | None => Raise FileNotFoundError
  end.

(** [lambda w, x, y, z: w] *)
Definition default_callback : callback :=
  fun w x y z => Return (VStr w).

(** [if on_entry_found_callback is None: on_entry_found_callback = lambda ...] *)
Definition callback_or_default (on_entry_found_callback : option callback)
  : callback :=
  match on_entry_found_callback with
  | None => default_callback
  | Some cb => cb
  end.

(** [scan_directory(path, recursive=..., on_entry_found_callback=..., **kwargs)]
    under [@catch(default_on_error_behavior=OnError.LOG)].  The decorator is
    given no [value_to_return_on_error], so the fallback is the decorator's
    own default, a fixed value [fallback] chosen outside this repository. *)
Definition scan_directory (fallback : value) (h : host) (path : PathLike)
    (recursive : bool) (on_entry_found_callback : option callback)
    (on_entry_found_callback_kwargs : kwargs) : result value * list exn :=
  catch LOG fallback
    (let on_entry_found_callback :=
       callback_or_default on_entry_found_callback in
     d ← at_path h (from_path_like path);
     results ← _recursion recursive on_entry_found_callback
                 on_entry_found_callback_kwargs (from_path_like path) d;
     mret (VList results)).

(** The results accumulated by [scan_directory]'s traversal when it stops,
    and the exception that stopped it, if one did. *)
Definition accumulated_at (h : host) (path : PathLike) (recursive : bool)
    (on_entry_found_callback : option callback)
    (on_entry_found_callback_kwargs : kwargs) : list value * option exn :=
  match h (from_path_like path) with
  | Some d =>
      accumulated recursive (callback_or_default on_entry_found_callback)
        on_entry_found_callback_kwargs (from_path_like path) d
  | None => ([], Some FileNotFoundError)
  end.

Module ConfigurableCallbacks.

(** What [re.Pattern.match] can be handed in this code: a [str], or (in
    [_match_pattern]) the compiled pattern itself. *)
Inductive match_arg (Pattern : Type) : Type :=
  | ArgStr (s : string)
  | ArgPattern (p : Pattern).
Arguments ArgStr {Pattern} s.
Arguments ArgPattern {Pattern} p.

Section Regex.
(** The compiled-regular-expression provider ([RegexUtil.get_compiled_re],
    [re.Pattern]) is an external collaborator. *)
Variable Pattern : Type.
Variable get_compiled_re : string → Pattern.
(** [bool(p.match(s))] for a string [s]: [p] matches at the start of [s]. *)
Variable matches_at_start : Pattern → string → bool.

(** [compiled_pattern.match(x)]: [re] raises [TypeError] ("expected string
    or bytes-like object") on anything that is not a string. *)
Definition Pattern_match (p : Pattern) (x : match_arg Pattern) : result bool :=
  match x with
  | ArgStr s => Return (matches_at_start p s)
  | ArgPattern _ => Raise TypeError
  end.

Definition match_pattern (pattern : string) : callback :=
  let compiled_pattern := get_compiled_re pattern in
  fun entry_path is_directory dir_entry kwargs_dict =>
    let name := name dir_entry in
    m ← Pattern_match compiled_pattern (ArgPattern compiled_pattern);
    if (m : bool) then Return (VStr entry_path) else Return VNone.

(** The callback the specification describes: the compiled pattern is
    matched against the entry's name. *)
Definition match_pattern_spec (pattern : string) : callback :=
  let compiled_pattern := get_compiled_re pattern in
  fun entry_path is_directory dir_entry kwargs_dict =>
    m ← Pattern_match compiled_pattern (ArgStr (name dir_entry));
    if (m : bool) then Return (VStr entry_path) else Return VNone.
End Regex.

(** [for extension in extensions: if dir_entry.name.endswith(extension):
    return entry_path] and [return None] after the loop. *)
Fixpoint for_extensions (entry_path : string) (dir_entry : DirEntry)
    (extensions : list string) : value :=
  match extensions with
  | [] => VNone
  | extension :: extensions' =>
      if Str.endswith (name dir_entry) extension then VStr entry_path
      else for_extensions entry_path dir_entry extensions'
  end.

Definition file_extensions (extensions : list string) : callback :=
  fun entry_path is_directory dir_entry kwargs_dict =>
    Return (for_extensions entry_path dir_entry extensions).

(** [name] ends with one of [extensions], literally. *)
Definition has_extension (name : string) (extensions : list string) : Prop :=
  ∃ extension front, extension ∈ extensions ∧ name = front +:+ extension.

End ConfigurableCallbacks.

End Scan.

(** ** [efs.io_.read_swarm] *)

Module ReadSwarm.

(** An open text file as [ReadSwarm] uses it: the text not read yet, whether
    the handle was closed, and the error the host reports when the handle is
    closed, if any. *)
Record TextIO : Type := {
  unread : string;
  closed : bool;
  close_error : option exn
}.

(** What the host has behind a path that can be opened. *)
Record host_file : Type := {
  content : string;
  error_on_close : option exn
}.

(** [open(f, "r", encoding="utf8")] on the host: the file, or the exception
    [open] raises. *)
Definition opener : Type := string → result host_file.

(** The first line of [s], newline included, and what follows it. *)
Fixpoint take_line (s : string) : string * string :=
  match s with
  | EmptyString => (EmptyString, EmptyString)
  | String c s' =>
      if Ascii.eqb c "010"%char then (String c EmptyString, s')
      else let '(line, rest) := take_line s' in (String c line, rest)
  end.

(** [f.readline()]: [ValueError] on a closed file, the empty string at the
    end of the file. *)
Definition readline (f : TextIO) : result string * TextIO :=
  if closed f then (Raise ValueError, f)
  else
    let '(line, rest) := take_line (unread f) in
    (Return line,
     {| unread := rest; closed := false; close_error := close_error f |}).

(** [f.close()]: nothing on a closed file; otherwise the handle is closed,
    and the host's error, if any, is raised. *)
Definition TextIO_close (f : TextIO) : result unit * TextIO :=
  if closed f then (Return tt, f)
  else
    (match close_error f with
     | Some e => Raise e
     | None => Return tt
     end,
     {| unread := unread f; closed := true; close_error := close_error f |}).

(** The handle a successful [open] returns: nothing read, not closed. *)
Definition opened (hf : host_file) : TextIO :=
  {| unread := content hf; closed := false; close_error := error_on_close hf |}.

(** [try: body except Exception: handler] *)
Definition try_except {A : Type} (body : result A) (handler : exn → result A)
  : result A :=
  match body with
  | Return a => Return a
  | Raise e => handler e
  end.

(** [d[k] = v] on a Python [dict]: a key already present keeps its place. *)
Fixpoint dict_setitem {V : Type} (d : list (string * V)) (k : string) (v : V)
  : list (string * V) :=
  match d with
  | [] => [(k, v)]
  | (k', v') :: d' =>
      if String.eqb k' k then (k, v) :: d' else (k', v') :: dict_setitem d' k v
  end.

(** [d.values()] *)
Definition dict_values {V : Type} (d : list (string * V)) : list V := d.*2.

Section Swarm.
(** [T], the type of the records [container_type] builds. *)
Variable T : Type.

(** What [read_line] returns besides [None]. *)
Inductive record : Type :=
  | Tuple (items : list (option string))
  | Container (t : T).

Record ReadSwarm : Type := {
  _files : list string;
  _file_handles : list (string * TextIO);
  _container_type : option (list (option string) → result T)
}.

Definition __init__ (files : list string)
    (container_type : option (list (option string) → result T)) : ReadSwarm :=
  {| _files := files; _file_handles := []; _container_type := container_type |}.

Definition set_file_handles (self : ReadSwarm)
    (handles : list (string * TextIO)) : ReadSwarm :=
  {| _files := _files self;
     _file_handles := handles;
     _container_type := _container_type self |}.

(** [for f in self._files: self._file_handles[f] = open(f, ...)] *)
Fixpoint for_files (o : opener) (files : list string)
    (handles : list (string * TextIO)) : result unit * list (string * TextIO) :=
  match files with
  | [] => (Return tt, handles)
  | f :: files' =>
      match o f with
      | Raise e => (Raise e, handles)
      | Return hf => for_files o files' (dict_setitem handles f (opened hf))
      end
  end.

Definition open (o : opener) (self : ReadSwarm) : result unit * ReadSwarm :=
  let '(r, handles) := for_files o (_files self) (_file_handles self) in
  (r, set_file_handles self handles).

Definition _read_line_or_default (f : TextIO) (default : option string)
  : result (option string) * TextIO :=
  let '(r, f') := readline f in
  (try_except (line ← r; mret (Some line)) (fun _ => Return default), f').

(** [tuple(self._read_line_or_default(f) for f in
    self._file_handles.values())]: the handles are read one after the other,
    in the order of the dictionary. *)
Fixpoint read_values (handles : list (string * TextIO))
  : result (list (option string)) * list (string * TextIO) :=
  match handles with
  | [] => (Return [], [])
  | (k, f) :: handles' =>
      let '(r, f') := _read_line_or_default f None in
      match r with
      | Raise e => (Raise e, (k, f') :: handles')
      | Return item =>
          let '(r', handles'') := read_values handles' in
          (items ← r'; mret (item :: items), (k, f') :: handles'')
      end
  end.

(** Truth value of a [str | None]: [None] and the empty string are false. *)
Definition truthy (item : option string) : bool :=
  match item with
  | None => false
  | Some s => negb (String.eqb s EmptyString)
  end.

(** [any(items)] *)
Definition any (items : list (option string)) : bool := existsb truthy items.

Definition read_line (self : ReadSwarm) : result (option record) * ReadSwarm :=
  let '(r, handles) := read_values (_file_handles self) in
  let self := set_file_handles self handles in
  (items ← r;
   if negb (any items) then mret None
   else
     match _container_type self with
     | Some container_type =>
         t ← container_type items; mret (Some (Container t))
     | None => mret (Some (Tuple items))
     end,
   self).

(** [for f in self._file_handles.values(): try: f.close() except Exception:
    pass] *)
Fixpoint for_handles_close (handles : list (string * TextIO))
  : result unit * list (string * TextIO) :=
  match handles with
  | [] => (Return tt, [])
  | (k, f) :: handles' =>
      let '(r, f') := TextIO_close f in
      match try_except r (fun _ => Return tt) with
      | Raise e => (Raise e, (k, f') :: handles')
      | Return _ =>
          let '(r', handles'') := for_handles_close handles' in
          (r', (k, f') :: handles'')
      end
  end.

Definition close (self : ReadSwarm) : result unit * ReadSwarm :=
  let '(r, handles) := for_handles_close (_file_handles self) in
  (r, set_file_handles self handles).

(** [n] calls of [close], one after the other, stopping at the first that
    raises. *)
Fixpoint close_times (n : nat) (self : ReadSwarm) : result unit * ReadSwarm :=
  match n with
  | O => (Return tt, self)
  | S n' =>
      let '(r, self') := close self in
      match r with
      | Raise e => (Raise e, self')
      | Return _ => close_times n' self'
      end
  end.

(** The reader after [k] calls of [read_line]. *)
Fixpoint reader_after (k : nat) (self : ReadSwarm) : ReadSwarm :=
  match k with
  | O => self
  | S k' => reader_after k' (snd (read_line self))
  end.

(** The outcome of the call of [read_line] that follows [k] earlier calls. *)
Definition nth_read (k : nat) (self : ReadSwarm) : result (option record) :=
  fst (read_line (reader_after k self)).

(** What [read_line] makes of the items it has read. *)
Definition record_of
    (container_type : option (list (option string) → result T))
    (items : list (option string)) : result (option record) :=
  if any items then
    match container_type with
    | Some container_type => t ← container_type items; mret (Some (Container t))
    | None => mret (Some (Tuple items))
    end
  else mret None.

Definition __enter__ (o : opener) (self : ReadSwarm) : result unit * ReadSwarm :=
  open o self.

Definition __exit__ (self : ReadSwarm) : result unit * ReadSwarm :=
  close self.

(** [with ReadSwarm(...) as swarm: body]: when [__enter__] raises, the
    block and [__exit__] are not run; otherwise [__exit__] runs whatever the
    block did, and, as it returns [None], an exception of the block
    propagates. *)
Definition with_ {A : Type} (o : opener) (self : ReadSwarm)
    (body : ReadSwarm → result A * ReadSwarm) : result A * ReadSwarm :=
  let '(r, self) := __enter__ o self in
  match r with
  | Raise e => (Raise e, self)
  | Return _ =>
      let '(rb, self) := body self in
      let '(rx, self) := __exit__ self in
      match rx with
      | Raise e => (Raise e, self)
      | Return _ => (rb, self)
      end
  end.

End Swarm.

Arguments Tuple {T} items.
Arguments Container {T} t.
Arguments _files {T} self : rename.
Arguments _file_handles {T} self : rename.
Arguments _container_type {T} self : rename.
Arguments __init__ {T} files container_type.
Arguments set_file_handles {T} self handles.
Arguments open {T} o self.
Arguments read_line {T} self.
Arguments close {T} self.
Arguments close_times {T} n self.
Arguments reader_after {T} k self.
Arguments nth_read {T} k self.
Arguments record_of {T} container_type items.
Arguments __enter__ {T} o self.
Arguments __exit__ {T} self.
Arguments with_ {T A} o self body.

(** The slot a handle fills in a call of [read_line]: [None] when reading
    it raises, and otherwise its next line, which is the empty string at the
    end of the file. *)
Definition slot (f : TextIO) : option string :=
  if closed f then None else Some (fst (take_line (unread f))).

(** A handle after one more call of [readline]. *)
Definition advanced (f : TextIO) : TextIO := snd (readline f).

(** [s] without its first [k] lines. *)
Fixpoint skip_lines (k : nat) (s : string) : string :=
  match k with
  | O => s
  | S k' => skip_lines k' (snd (take_line s))
  end.

(** Line [k] (from 0) of a file that holds [s]: the empty string once the
    lines are used up. *)
Definition nth_line (k : nat) (s : string) : string :=
  fst (take_line (skip_lines k s)).

(** The file the host has at [f], or an empty one where [open] raises. *)
Definition file_at (o : opener) (f : string) : host_file :=
  match o f with
  | Return hf => hf
  | Raise _ => {| content := EmptyString; error_on_close := None |}
  end.

(** A handle that gives nothing more: closed, or at the end of its file. *)
Definition spent (f : TextIO) : Prop := closed f = true ∨ unread f = EmptyString.

(** The paths of [files] that are neither in [seen] nor earlier in [files],
    in the order of [files]: the keys that assigning [files] one after the
    other adds to a dictionary whose keys are [seen]. *)
Fixpoint distinct (seen files : list string) : list string :=
  match files with
  | [] => []
  | f :: files' =>
      if bool_decide (f ∈ seen) then distinct seen files'
      else f :: distinct (seen ++ [f]) files'
  end.

(** The handle [open] stores for [f]. *)
Definition fresh (o : opener) (f : string) : string * TextIO :=
  (f, opened (file_at o f)).

(** The dictionary after the files [files] were opened one after the
    other: the keys it had keep their place, with a new handle when their
    file is among [files], and the other files follow, once each. *)
Definition assigned (o : opener) (files : list string)
    (handles : list (string * TextIO)) : list (string * TextIO) :=
  ((λ kv, if bool_decide (kv.1 ∈ files) then fresh o kv.1 else kv) <$> handles)
  ++ (fresh o <$> distinct handles.*1 files).

End ReadSwarm.

(** ** Texts put one after the other *)

Module TextFile.


End TextFile.

(** ** [efs.core.path_core], as far as [_fs.py] calls it *)

Module PathCore.

(** [s] cut at its first [c]: what is before it and what is after it. *)
Fixpoint cut_at_first (c : ascii) (s : string) : option (string * string) :=
  match s with
  | EmptyString => None
  | String a s' =>
      if Ascii.eqb a c then Some (EmptyString, s')
      else
        match cut_at_first c s' with
        | Some (before, after) => Some (String a before, after)
        | None => None
        end
  end.

(** [s] cut at its last [c]. *)
Definition cut_at_last (c : ascii) (s : string) : option (string * string) :=
  match cut_at_first c (String.rev s) with
  | Some (after, before) => Some (String.rev before, String.rev after)
  | None => None
  end.

(** Modelled from the spec: [get_path_parts_and_extension] of
    [efs.core.path_core], which is not under src/.  "Returns a fixed-arity
    tuple (directory, base-name, extension) -- extension is empty when the
    file has none; a leading dot-only name must not be misparsed as having an
    empty base name"; on "a/b/c.txt" it yields ("a/b", "c", "txt"). *)
Definition get_path_parts_and_extension (path : string)
  : string * string * string :=
  let '(directory, file_name) :=
    match cut_at_last "/"%char path with
    | Some (d, f) => (d, f)
    | None => (EmptyString, path)
    end in
  match cut_at_last "."%char file_name with
  | Some (base, extension) =>
      if String.eqb base EmptyString then (directory, file_name, EmptyString)
      else (directory, base, extension)
  | None => (directory, file_name, EmptyString)
  end.

(** Redundant separators collapsed: one "/" for every run of them. *)
Fixpoint collapse (s : string) : string :=
  match s with
  | EmptyString => EmptyString
  | String a s' =>
      match s' with
      | String b _ =>
          if Ascii.eqb a "/"%char && Ascii.eqb b "/"%char then collapse s'
          else String a (collapse s')
      | EmptyString => String a EmptyString
      end
  end.

(** Modelled from the spec: [join] of [efs.core.path_core], which is not
    under src/, at two arguments.  "Concatenates segments using the
    host-appropriate separator, collapsing redundant separators"; an empty
    segment adds nothing. *)
Definition join (base part : string) : string :=
  if String.eqb base EmptyString then collapse part
  else if String.eqb part EmptyString then collapse base
  else collapse (base +:+ "/" +:+ part).

End PathCore.

(** ** [efs.file_system._fs] *)

Module Fs.

(** What the facade asks the host: which paths are regular files, and which
    are symbolic links. *)
Record filesystem : Type := {
  regular_files : gset string;
  symbolic_links : gset string
}.

(** [os.path.isfile] *)
Definition os_path_isfile (fs : filesystem) (p : string) : bool :=
  bool_decide (p ∈ regular_files fs).

(** [os.path.islink] *)
Definition os_path_islink (fs : filesystem) (p : string) : bool :=
  bool_decide (p ∈ symbolic_links fs).

(** [is_file], under [@catch(IGNORE, value_to_return_on_error=False)]. *)
Definition is_file (fs : filesystem) (path : PathLike)
  : result bool * list exn :=
  catch IGNORE false (Return (os_path_isfile fs (from_path_like path))).

(** [is_link], under [@catch(IGNORE, value_to_return_on_error=False)]: the
    body is [return False]. *)
Definition is_link (fs : filesystem) (path : PathLike)
  : result bool * list exn :=
  catch IGNORE false (Return false).

(** [len(range(start, stop, step))] for a step that is not 0. *)
Definition range_len (start stop step : Z) : Z :=
  if (0 <? step)%Z then
    if (start <? stop)%Z then ((stop - start - 1) / step + 1)%Z else 0%Z
  else
    if (stop <? start)%Z then ((start - stop - 1) / (- step) + 1)%Z else 0%Z.

(** [range(start, stop, step)]: [ValueError] on a step of 0. *)
Definition range (start stop step : Z) : result (list Z) :=
  if (step =? 0)%Z then Raise ValueError
  else
    Return (map (fun k : nat => (start + Z.of_nat k * step)%Z)
              (seq 0 (Z.to_nat (range_len start stop step)))).

Section NextName.
(** [efs.core.path_core] is not under src/: the two functions this module
    imports from it are taken as they come. *)
Variable get_path_parts_and_extension : string → string * string * string.
Variable join : string → string → string.

(** [join(path_part, f"{file_name_only}{separator}{i}.{extension}")] *)
Definition path_candidate (path_part file_name_only separator extension : string)
    (i : Z) : string :=
  join path_part (file_name_only +:+ separator +:+ pretty i +:+ "." +:+ extension).

(** The [for i in range(...)] loop: the first candidate that is not a file,
    or nothing when the range is used up. *)
Fixpoint for_range (fs : filesystem)
    (path_part file_name_only separator extension : string) (r : list Z)
  : result (option string) :=
  match r with
  | [] => mret None
  | i :: r' =>
      let path_candidate :=
        path_candidate path_part file_name_only separator extension i in
      taken ← fst (is_file fs (PathLikeStr path_candidate));
      if negb taken then mret (Some path_candidate)
      else for_range fs path_part file_name_only separator extension r'
  end.

Definition get_next_available_file_name (fs : filesystem) (path : PathLike)
    (separator : string) (start_integer max_limit step : Z) : result string :=
  let '(path_part, file_name_only, extension) :=
    get_path_parts_and_extension (from_path_like path) in
  r ← range start_integer max_limit step;
  found ← for_range fs path_part file_name_only separator extension r;
  match found with
  | Some path_candidate => mret path_candidate
  | None => Raise OverflowError
  end.
End NextName.


(** *** Files with their text: [merge_files] *)










(** *** Directories: [mkdir], [rmdir], [remake_dir] *)

Section Directories.
(** The host's directories and the primitives that change them
    ([shutil.rmtree], [os.rmdir], [os.makedirs] with its [exist_ok]) are
    taken as they come, and so is the policy [catch] applies when the
    decorator is given none. *)
Variable host_state : Type.
Variable rmtree : host_state → string → result unit * host_state.
Variable os_rmdir : host_state → string → result unit * host_state.
Variable makedirs : host_state → string → bool → result unit * host_state.
Variable default_policy : OnError.

(** [mkdir], under [@catch(value_to_return_on_error=False)]. *)
Definition mkdir (st : host_state) (path : PathLike) (ignore_existing : bool)
  : result bool * list exn * host_state :=
  let '(r, st) := makedirs st (from_path_like path) ignore_existing in
  (catch default_policy false (_ ← r; mret true), st).

(** [rmdir], under [@catch(value_to_return_on_error=False)]. *)
Definition rmdir (st : host_state) (path : PathLike) (must_be_empty : bool)
  : result bool * list exn * host_state :=
  let '(r, st) :=
    if must_be_empty then os_rmdir st (from_path_like path)
    else rmtree st (from_path_like path) in
  (catch default_policy false (_ ← r; mret true), st).

(** [return rmdir(path) and mkdir(path)] *)
Definition remake_dir (st : host_state) (path : PathLike)
  : result bool * list exn * host_state :=
  let '(r, log, st) := rmdir st path false in
  match r with
  | Raise e => (Raise e, log, st)
  | Return false => (Return false, log, st)
  | Return true =>
      let '(r', log', st) := mkdir st path true in
      (r', log ++ log', st)
  end.
End Directories.

End Fs.

(** ** Hosts and files of the specification's examples *)

Module Examples.

(** A directory with [x.txt], [y.log] and [sub/z.txt]. *)
Definition sub : node := Dir "sub" [File "z.txt"].
Definition tree : node := Dir "d" [File "x.txt"; File "y.log"; sub].
Definition tree_host : host :=
  fun p => if String.eqb p "d" then Some tree else None.

(** The same directory when [sub] cannot be listed. *)
Definition locked_tree : node :=
  Dir "d" [File "x.txt"; BrokenDir "sub" PermissionError; File "y.log"].
Definition locked_host : host :=
  fun p => if String.eqb p "d" then Some locked_tree else None.

(** A host with nothing on it. *)
Definition empty_host : host := fun _ => None.

(** A directory with [a.txt], [b.md] and [c.py]. *)
Definition sources : node := Dir "src" [File "a.txt"; File "b.md"; File "c.py"].
Definition sources_host : host :=
  fun p => if String.eqb p "src" then Some sources else None.

(** The newline character, as a string. *)
Definition nl : string := String "010"%char EmptyString.

(** A file of three lines and a file of two. *)
Definition three_lines : string :=
  "a1" +:+ nl +:+ "a2" +:+ nl +:+ "a3" +:+ nl.
Definition two_lines : string := "b1" +:+ nl +:+ "b2" +:+ nl.

Definition two_files : ReadSwarm.opener :=
  fun p =>
    if String.eqb p "a.txt" then
      Return {| ReadSwarm.content := three_lines;
                ReadSwarm.error_on_close := None |}
    else if String.eqb p "b.txt" then
      Return {| ReadSwarm.content := two_lines;
                ReadSwarm.error_on_close := None |}
    else Raise FileNotFoundError.

(** A reader over the two files, building tuples, after [open()]. *)
Definition two_files_reader : ReadSwarm.ReadSwarm Empty_set :=
  snd (ReadSwarm.open two_files
         (ReadSwarm.__init__ ["a.txt"; "b.txt"] None)).

(** A reader asked for the same file twice, after [open()]. *)
Definition same_file_twice : ReadSwarm.ReadSwarm Empty_set :=
  snd (ReadSwarm.open two_files
         (ReadSwarm.__init__ ["a.txt"; "a.txt"] None)).

(** A host on which [f.txt], [f0.txt] and [f1.txt] exist in [d], and on
    which [d/l] is a symbolic link. *)
Definition numbered : Fs.filesystem :=
  {| Fs.regular_files := {["d/f.txt"; "d/f0.txt"; "d/f1.txt"]};
     Fs.symbolic_links := {["d/l"]} |}.

End Examples.

(** ** More hosts for examples *)

Module MoreExamples.



(** Directories as a set of paths, with primitives that fail on a path that
    is not there (removal) and never fail (creation). *)
Definition remove_directory (dirs : gset string) (p : string)
  : result unit * gset string :=
  if bool_decide (p ∈ dirs) then (Return tt, dirs ∖ {[p]})
  else (Raise FileNotFoundError, dirs).

Definition make_directory (dirs : gset string) (p : string) (exist_ok : bool)
  : result unit * gset string :=
  (Return tt, dirs ∪ {[p]}).

End MoreExamples.

(** * Properties *)

(** ** The error monad *)

Lemma bind_Return_inv {A B : Type} (m : result A) (f : A → result B) (b : B) :
  m ≫= f = Return b → ∃ a, m = Return a ∧ f a = Return b.
Proof.
  destruct m as [a|e]; simpl; intros H.
  - exists a. split; [reflexivity | exact H].
  - discriminate H.
Qed.

(** ** Strings *)

Lemma startswith_spec (s prefix : string) :
  Str.startswith s prefix = true ↔ ∃ rest, s = prefix +:+ rest.
Proof.
  revert s. induction prefix as [|p prefix IH]; intros s; simpl.
  - split; [intros _; exists s; reflexivity | reflexivity].
  - destruct s as [|c s].
    + split; [discriminate | intros [rest H]; discriminate H].
    + destruct (Ascii.eqb_spec c p) as [->|Hne].
      * rewrite IH. split; intros [rest H]; exists rest.
        -- simpl. by rewrite H.
        -- simpl in H. by injection H.
      * split; [discriminate |].
        intros [rest H]. simpl in H. injection H as H1 _. contradiction.
Qed.

Lemma endswith_unfold (s suffix : string) :
  Str.endswith s suffix =
  if String.eqb s suffix then true
  else match s with
       | EmptyString => false
       | String _ s' => Str.endswith s' suffix
       end.
Proof. by destruct s. Qed.

Lemma endswith_spec (s suffix : string) :
  Str.endswith s suffix = true ↔ ∃ front, s = front +:+ suffix.
Proof.
  split.
  - induction s as [|c s IH]; rewrite endswith_unfold.
    + destruct (String.eqb_spec "" suffix) as [<-|_]; [|done].
      intros _. by exists "".
    + destruct (String.eqb_spec (String c s) suffix) as [<-|_].
      * intros _. by exists "".
      * intros H. destruct (IH H) as [front ->]. by exists (String c front).
  - intros [front ->]. induction front as [|c front IH];
      rewrite endswith_unfold.
    + change ("" +:+ suffix) with suffix. by rewrite String.eqb_refl.
    + destruct (String.eqb_spec (String c front +:+ suffix) suffix); [done|].
      exact IH.
Qed.

(** ** The scan callbacks *)

Section CallbackFacts.
Import Scan Scan.ConfigurableCallbacks.

Lemma for_extensions_hit entry_path dir_entry extensions :
  has_extension (name dir_entry) extensions →
  for_extensions entry_path dir_entry extensions = VStr entry_path.
Proof.
  intros (extension & front & Hin & Hname).
  induction extensions as [|x extensions IH]; [by apply elem_of_nil in Hin|].
  simpl. destruct (Str.endswith (name dir_entry) x) eqn:Hx; [done|].
  apply elem_of_cons in Hin as [->|Hin]; [|by apply IH].
  assert (Str.endswith (name dir_entry) x = true) as Hx'
    by (apply endswith_spec; by exists front).
  congruence.
Qed.

Lemma for_extensions_miss entry_path dir_entry extensions :
  ¬ has_extension (name dir_entry) extensions →
  for_extensions entry_path dir_entry extensions = VNone.
Proof.
  induction extensions as [|x extensions IH]; intros Hno; [done|].
  simpl. destruct (Str.endswith (name dir_entry) x) eqn:Hx.
  - exfalso. apply Hno. apply endswith_spec in Hx as [front Hx].
    exists x, front. split; [left | done].
  - apply IH. intros (extension & front & Hin & Hname). apply Hno.
    exists extension, front. split; [by right | done].
Qed.

Lemma has_extension_dec name extensions :
  has_extension name extensions ∨ ¬ has_extension name extensions.
Proof.
  induction extensions as [|x extensions [IH|IH]].
  - right. intros (? & ? & Hin & _). by apply elem_of_nil in Hin.
  - left. destruct IH as (e & front & Hin & Hname).
    exists e, front. split; [by right | done].
  - destruct (Str.endswith name x) eqn:Hx.
    + left. apply endswith_spec in Hx as [front Hx].
      exists x, front. split; [left | done].
    + right. intros (e & front & Hin & Hname).
      apply elem_of_cons in Hin as [->|Hin].
      * assert (Str.endswith name x = true) as Hx'
          by (apply endswith_spec; by exists front).
        congruence.
      * apply IH. by exists e, front.
Qed.

(** C8.  For every sequence of extension strings and every directory entry,
    the callback built by [file_extensions] returns the entry's full path
    exactly when one of the extensions is a literal suffix of the entry's
    name (the full path plays no part in the test), and returns [None]
    exactly when none is.  Scanning a directory that holds a.txt, b.md and
    c.py with the extensions ".txt" and ".md" yields the paths of a.txt and
    b.md and nothing else. *)
Theorem file_extensions_literal_suffix :
  (∀ (extensions : list string) (entry_path : string) (is_directory : bool)
     (dir_entry : DirEntry) (kwargs_dict : kwargs),
     (file_extensions extensions entry_path is_directory dir_entry kwargs_dict
        = Return (VStr entry_path)
      ↔ has_extension (name dir_entry) extensions) ∧
     (file_extensions extensions entry_path is_directory dir_entry kwargs_dict
        = Return VNone
      ↔ ¬ has_extension (name dir_entry) extensions)) ∧
  (∀ fallback recursive,
     scan_directory fallback Examples.sources_host "src" recursive
       (Some (file_extensions [".txt"; ".md"])) []
     = (Return (VList [VStr "src/a.txt"; VStr "src/b.md"]), [])).
Proof.
  split; [|by intros fallback []].
  intros extensions entry_path is_directory dir_entry kwargs_dict.
  unfold file_extensions.
  destruct (has_extension_dec (name dir_entry) extensions) as [Hyes|Hno].
  - rewrite (for_extensions_hit _ _ _ Hyes). split; split; try done.
  - rewrite (for_extensions_miss _ _ _ Hno). split; split; try done.
Qed.

(** C4.  Whatever the regular-expression provider, the pattern and the
    entry, the callback built by [match_pattern] raises [TypeError]: it hands
    the compiled pattern, not the entry's name, to [Pattern.match].  It
    neither returns the entry's path nor the no-match sentinel, also where
    the callback the specification describes returns the path. *)
Theorem match_pattern_raises_TypeError :
  ∀ (Pattern : Type) (get_compiled_re : string → Pattern)
    (matches_at_start : Pattern → string → bool)
    (pattern entry_path : string) (is_directory : bool)
    (dir_entry : DirEntry) (kwargs_dict : kwargs),
    match_pattern Pattern get_compiled_re matches_at_start pattern
      entry_path is_directory dir_entry kwargs_dict = Raise TypeError ∧
    match_pattern_spec Pattern get_compiled_re matches_at_start pattern
      entry_path is_directory dir_entry kwargs_dict
    = Return (if matches_at_start (get_compiled_re pattern) (name dir_entry)
              then VStr entry_path else VNone).
Proof.
  intros. split; [reflexivity|].
  unfold match_pattern_spec. simpl.
  by destruct (matches_at_start _ _).
Qed.

End CallbackFacts.

(** ** The traversal *)

(** Induction on a directory tree, with the hypothesis on every entry of a
    directory. *)
Lemma node_induction (P : node → Prop)
    (HFile : ∀ n, P (File n))
    (HDir : ∀ n entries, Forall P entries → P (Dir n entries))
    (HBroken : ∀ n e, P (BrokenDir n e)) :
  ∀ d, P d.
Proof.
  fix IH 1. intros [n|n entries|n e]; [apply HFile| |apply HBroken].
  apply HDir. induction entries as [|f fs IHfs]; constructor.
  - apply IH.
  - exact IHfs.
Qed.

Section TraversalFacts.
Import Scan.
Variable recursive : bool.
Variable cb : callback.
Variable kw : kwargs.

Lemma visit_results rec path_ results f :
  visit recursive cb kw rec path_ results f
  = (r ← visit recursive cb kw rec path_ [] f; mret (results ++ r)).
Proof.
  unfold visit. simpl.
  destruct (recursive && node_is_dir f); simpl.
  - destruct (rec _ f) as [sub|e]; simpl; [|done].
    destruct (cb _ _ _ _) as [v|e]; simpl; [|done].
    destruct (is_not_None v); simpl; by rewrite ?app_assoc.
  - destruct (cb _ _ _ _) as [v|e]; simpl; [|done].
    destruct (is_not_None v); simpl; by rewrite ?app_nil_r.
Qed.

Lemma for_entries_results rec path_ fs results :
  for_entries recursive cb kw rec path_ fs results
  = (r ← for_entries recursive cb kw rec path_ fs []; mret (results ++ r)).
Proof.
  revert results. induction fs as [|f fs IH]; intros results; simpl.
  - by rewrite app_nil_r.
  - rewrite visit_results.
    destruct (visit recursive cb kw rec path_ [] f) as [r|e]; simpl; [|done].
    rewrite (IH (results ++ r)), (IH r).
    destruct (for_entries recursive cb kw rec path_ fs []) as [r'|e]; simpl;
      by rewrite ?app_assoc.
Qed.


(** The traced traversal agrees with [_recursion] on the outcome. *)
Lemma for_entries_traced_outcome rec rec' path_ fs :
  Forall (λ f, ∀ p, rec p f = outcome (rec' p f)) fs →
  for_entries recursive cb kw rec path_ fs []
  = outcome (for_entries_traced recursive cb kw rec' path_ fs).
Proof.
  induction 1 as [|f fs Hf _ IH]; simpl; [done|].
  assert (∀ here, for_entries recursive cb kw rec path_ fs here
    = outcome (let '(later, raised') :=
                 for_entries_traced recursive cb kw rec' path_ fs in
               (here ++ later, raised'))) as Hrest.
  { intros here. rewrite for_entries_results, IH.
    by destruct (for_entries_traced _ _ _ _ _ fs) as [later [e|]]. }
  unfold visit, visit_traced. simpl.
  destruct (recursive && node_is_dir f); simpl.
  - rewrite Hf. destruct (rec' _ f) as [sub [e|]]; simpl; [done|].
    destruct (cb _ _ _ _) as [v|e]; simpl; [|done].
    by rewrite Hrest.
  - destruct (cb _ _ _ _) as [v|e]; simpl; [|done].
    by rewrite Hrest.
Qed.

Lemma recursion_outcome d :
  ∀ path_, _recursion recursive cb kw path_ d
           = outcome (accumulated recursive cb kw path_ d).
Proof.
  induction d as [n|n entries IH|n e] using node_induction; intros path_;
    simpl; try done.
  by apply for_entries_traced_outcome.
Qed.

End TraversalFacts.

Section ScanFacts.
Import Scan.




(** What [scan_directory] returns when nothing is logged is what
    [_recursion] returned on the directory at its path. *)
Lemma scan_directory_returns fallback h path recursive cb kw d results :
  h (from_path_like path) = Some d →
  scan_directory fallback h path recursive cb kw = (Return (VList results), [])
  ↔ _recursion recursive (callback_or_default cb) kw (from_path_like path) d
    = Return results.
Proof.
  intros Hd. unfold scan_directory, at_path. rewrite Hd. simpl.
  destruct (_recursion _ _ _ _ d) as [r|e]; simpl; split; congruence.
Qed.



(** What [scan_directory] returns, from the traced traversal. *)
Lemma scan_directory_outcome fallback h path recursive cb kw :
  scan_directory fallback h path recursive cb kw
  = match accumulated_at h path recursive cb kw with
    | (results, None) => (Return (VList results), [])
    | (_, Some e) => (Return fallback, [e])
    end.
Proof.
  unfold scan_directory, accumulated_at, at_path.
  destruct (h (from_path_like path)) as [d|]; simpl; [|done].
  rewrite recursion_outcome.
  by destruct (accumulated _ _ _ _ d) as [results [e|]].
Qed.

(** C3, as the code has it.  Under the default error policy, when the
    traversal of [scan_directory] is stopped by an error (the path does not
    exist, a directory cannot be listed, an entry was removed, the callback
    raised), the call does not raise: the error is logged and the call
    returns the fallback value of the error decorator, whatever had been
    accumulated before the failure. *)
Theorem scan_directory_error_returns_fallback
    (fallback : value) (h : host) (path : PathLike) (recursive : bool)
    (cb : option callback) (kw : kwargs) (partial : list value) (e : exn) :
  accumulated_at h path recursive cb kw = (partial, Some e) →
  scan_directory fallback h path recursive cb kw = (Return fallback, [e]).
Proof. intros H. by rewrite scan_directory_outcome, H. Qed.

(** The scan of a tree whose subdirectory cannot be listed, after [x.txt]
    was accumulated. *)
Lemma scan_directory_error_returns_fallback_example :
  accumulated_at Examples.locked_host "d" true None []
    = ([VStr "d/x.txt"], Some PermissionError) ∧
  scan_directory VNone Examples.locked_host "d" true None []
    = (Return VNone, [PermissionError]).
Proof.
  split; [reflexivity|].
  exact (scan_directory_error_returns_fallback VNone Examples.locked_host "d"
           true None [] [VStr "d/x.txt"] PermissionError eq_refl).
Defined.

(** C3, as the specification has it, fails: no fallback value makes every
    failing scan return what it had accumulated.  The scan of [locked_host]
    fails after [d/x.txt] was accumulated, the scan of a path that does not
    exist fails with nothing accumulated, and both return the same value. *)
Lemma scan_directory_drops_partial_results :
  ¬ ∃ fallback : value,
      ∀ (h : host) (path : PathLike) (recursive : bool)
        (cb : option callback) (kw : kwargs) (partial : list value) (e : exn),
        accumulated_at h path recursive cb kw = (partial, Some e) →
        fst (scan_directory fallback h path recursive cb kw)
        = Return (VList partial).
Proof.
  intros [fallback H].
  pose proof (H Examples.locked_host "d" true None [] [VStr "d/x.txt"]
                PermissionError eq_refl) as H1.
  pose proof (H Examples.empty_host "d" true None [] []
                FileNotFoundError eq_refl) as H2.
  simpl in H1, H2. congruence.
Qed.

End ScanFacts.

Section ExampleTreeFacts.
Import Scan.

#[local] Arguments os_path_join : simpl never.

Lemma permutation_of_three {A : Type} (a b c : A) (l : list A) :
  l ≡ₚ [a; b; c] →
  l = [a; b; c] ∨ l = [a; c; b] ∨ l = [b; a; c] ∨
  l = [b; c; a] ∨ l = [c; a; b] ∨ l = [c; b; a].
Proof.
  intros H. symmetry in H. apply permutations_Permutation in H.
  simpl in H.
  repeat (apply elem_of_cons in H as [-> | H]); try tauto.
  by apply elem_of_nil in H.
Qed.

(** Permutations of short lists of distinct variables, by enumeration. *)
Ltac solve_small_permutation :=
  apply permutations_Permutation; simpl; repeat constructor.

(** C1, as the code has it.  For a directory that holds exactly [x.txt],
    [y.log] and a subdirectory [sub] holding [z.txt], in whatever order the
    host enumerates them, [scan_directory] with the default callback yields,
    non-recursively, the paths of [x.txt], [y.log] and of the directory [sub]
    itself, in some order; recursively, it yields those and the path of
    [sub/z.txt], which stands immediately before the path of [sub]. *)
Theorem scan_directory_example_tree
    (fallback : value) (h : host) (path n : string) (entries : list node) :
  h path = Some (Dir n entries) →
  entries ≡ₚ [File "x.txt"; File "y.log"; Dir "sub" [File "z.txt"]] →
  (∃ l,
     scan_directory fallback h path false None [] = (Return (VList l), []) ∧
     l ≡ₚ [VStr (os_path_join path "x.txt"); VStr (os_path_join path "y.log");
           VStr (os_path_join path "sub")]) ∧
  (∃ l1 l2,
     scan_directory fallback h path true None []
     = (Return (VList (l1 ++ [VStr (os_path_join (os_path_join path "sub")
                                      "z.txt");
                              VStr (os_path_join path "sub")] ++ l2)), []) ∧
     l1 ++ l2 ≡ₚ [VStr (os_path_join path "x.txt");
                  VStr (os_path_join path "y.log")]).
Proof.
  intros Hh Hperm. unfold scan_directory, at_path. simpl. rewrite Hh. simpl.
  apply permutation_of_three in Hperm as [-> | [-> | [-> | [-> | [-> | ->]]]]];
    simpl;
    generalize (VStr (os_path_join path "x.txt")) as x;
    generalize (VStr (os_path_join path "y.log")) as y;
    generalize (VStr (os_path_join (os_path_join path "sub") "z.txt")) as z;
    generalize (VStr (os_path_join path "sub")) as s;
    intros s z y x.
  - split; [eexists; split; [done|] | exists [x; y], []; split; [done|]];
      solve_small_permutation.
  - split; [eexists; split; [done|] | exists [x], [y]; split; [done|]];
      solve_small_permutation.
  - split; [eexists; split; [done|] | exists [y; x], []; split; [done|]];
      solve_small_permutation.
  - split; [eexists; split; [done|] | exists [y], [x]; split; [done|]];
      solve_small_permutation.
  - split; [eexists; split; [done|] | exists [], [x; y]; split; [done|]];
      solve_small_permutation.
  - split; [eexists; split; [done|] | exists [], [y; x]; split; [done|]];
      solve_small_permutation.
Qed.

(** The example directory, enumerated as [x.txt], [y.log], [sub]. *)
Lemma scan_directory_example_tree_at_d :
  (∃ l,
     scan_directory VNone Examples.tree_host "d" false None []
     = (Return (VList l), []) ∧
     l ≡ₚ [VStr (os_path_join "d" "x.txt"); VStr (os_path_join "d" "y.log");
           VStr (os_path_join "d" "sub")]) ∧
  (∃ l1 l2,
     scan_directory VNone Examples.tree_host "d" true None []
     = (Return (VList (l1 ++ [VStr (os_path_join (os_path_join "d" "sub")
                                      "z.txt");
                              VStr (os_path_join "d" "sub")] ++ l2)), []) ∧
     l1 ++ l2 ≡ₚ [VStr (os_path_join "d" "x.txt");
                  VStr (os_path_join "d" "y.log")]).
Proof.
  exact (scan_directory_example_tree VNone Examples.tree_host "d" "d"
           [File "x.txt"; File "y.log"; Dir "sub" [File "z.txt"]]
           eq_refl (Permutation_refl _)).
Defined.

(** C1, as the specification has it, fails: the non-recursive scan of the
    example directory does not yield only the results for [x.txt] and
    [y.log]; the directory [sub] is an entry too, and the default callback
    emits its path. *)
Lemma scan_directory_non_recursive_emits_sub :
  ¬ ∃ l,
      scan_directory VNone Examples.tree_host "d" false None []
      = (Return (VList l), []) ∧
      l ≡ₚ [VStr "d/x.txt"; VStr "d/y.log"].
Proof.
  intros (l & [= <-] & Hperm). apply Permutation_length in Hperm.
  discriminate Hperm.
Qed.

End ExampleTreeFacts.

(** ** The lock-step reader *)

Section ReadSwarmFacts.
Import ReadSwarm.

Lemma read_line_or_default_slot (f : TextIO) :
  _read_line_or_default f None = (Return (slot f), advanced f).
Proof.
  unfold _read_line_or_default, slot, advanced, readline.
  destruct (closed f); [done|].
  by destruct (take_line (unread f)).
Qed.

(** One call reads every handle once, in the order of the dictionary, and
    does not raise. *)
Lemma read_values_slots (handles : list (string * TextIO)) :
  read_values handles
  = (Return (slot <$> dict_values handles),
     (λ kf, (kf.1, advanced kf.2)) <$> handles).
Proof.
  induction handles as [|[k f] handles IH]; simpl; [done|].
  by rewrite read_line_or_default_slot, IH.
Qed.

Lemma any_false_iff (items : list (option string)) :
  any items = false ↔ Forall (λ item, item = None ∨ item = Some "") items.
Proof.
  unfold any. induction items as [|item items IH]; simpl.
  - split; [constructor | done].
  - rewrite orb_false_iff, IH, Forall_cons. apply and_iff_compat_r.
    destruct item as [s|]; simpl.
    + destruct (String.eqb_spec s ""); simpl.
      * subst. split; [by right | done].
      * split; [done | intros [|[=]]; done].
    + split; [by left | done].
Qed.

Lemma read_line_record {T : Type} (self : ReadSwarm T) :
  read_line self
  = (record_of (_container_type self)
       (slot <$> dict_values (_file_handles self)),
     set_file_handles self
       ((λ kf, (kf.1, advanced kf.2)) <$> _file_handles self)).
Proof.
  unfold read_line, record_of. rewrite read_values_slots. simpl.
  by destruct (any _).
Qed.

(** C5, as the code has it.  For every reader, whatever its handles:
    a call of [read_line] reads each handle once, in the fixed order of the
    handle dictionary, slot [i] being filled by handle [i], and leaves every
    handle one line further; a handle at the end of its file contributes the
    empty string (not [None], which is the slot of a handle whose read
    raises) and the call does not fail; the overall result is [None] exactly
    when every slot is [None] or the empty string.  Over two files of 3 and 2
    lines the first two calls return (line, line), the third returns
    (line3, ""), and the fourth returns [None]. *)
Theorem read_line_lock_step :
  (∀ (T : Type) (self : ReadSwarm T),
     (∃ r,
        read_line self
        = (r, set_file_handles self
                ((λ kf, (kf.1, advanced kf.2)) <$> _file_handles self)) ∧
        r = record_of (_container_type self)
              (slot <$> dict_values (_file_handles self))) ∧
     (∀ f, closed f = false → unread f = "" →
           slot f = Some "" ∧ advanced f = f) ∧
     (fst (read_line self) = Return None
      ↔ Forall (λ item, item = None ∨ item = Some "")
          (slot <$> dict_values (_file_handles self)))) ∧
  nth_read 0 Examples.two_files_reader
    = Return (Some (Tuple [Some ("a1" +:+ Examples.nl);
                           Some ("b1" +:+ Examples.nl)])) ∧
  nth_read 1 Examples.two_files_reader
    = Return (Some (Tuple [Some ("a2" +:+ Examples.nl);
                           Some ("b2" +:+ Examples.nl)])) ∧
  nth_read 2 Examples.two_files_reader
    = Return (Some (Tuple [Some ("a3" +:+ Examples.nl); Some ""])) ∧
  nth_read 3 Examples.two_files_reader = Return None.
Proof.
  split; [|by repeat split].
  intros T self. split; [|split].
  - eexists. split; [apply read_line_record | done].
  - intros [u c e] Hc Hu. simpl in *. subst. by split.
  - rewrite read_line_record. simpl. rewrite <- any_false_iff.
    unfold record_of. destruct (any _); [|done].
    split; [|done]. destruct (_container_type self) as [ct|]; simpl; [|done].
    by destruct (ct _).
Qed.

(** C5, as the specification has it, fails: on the third call over the
    files of 3 and 2 lines, the slot of the exhausted file is not [None]. *)
Lemma read_line_exhausted_slot_is_not_None :
  nth_read 2 Examples.two_files_reader
  ≠ Return (Some (Tuple [Some ("a3" +:+ Examples.nl); None])).
Proof. intros H. vm_compute in H. discriminate H. Qed.

Lemma for_handles_close_returns (handles : list (string * TextIO)) :
  fst (for_handles_close handles) = Return tt.
Proof.
  induction handles as [|[k f] handles IH]; simpl; [done|].
  destruct (TextIO_close f) as [r f'].
  assert (try_except r (λ _, Return tt) = Return tt) as ->
    by (by destruct r as [[]|e]).
  by destruct (for_handles_close handles).
Qed.

Lemma close_returns {T : Type} (self : ReadSwarm T) :
  fst (close self) = Return tt.
Proof.
  unfold close. pose proof (for_handles_close_returns (_file_handles self)).
  by destruct (for_handles_close _).
Qed.

(** C9.  For every reader, [close()] returns without raising, whatever the
    state of its handles: before [open()] (no handle, nothing changes),
    after an earlier [close()], any number of times in a row, and also when
    closing a handle fails, the failure being swallowed while the remaining
    handles are still closed. *)
Theorem close_never_raises :
  ∀ (T : Type) (self : ReadSwarm T),
    fst (close self) = Return tt ∧
    (∀ n, fst (close_times n self) = Return tt) ∧
    (∀ files container_type n,
       close_times n (__init__ (T:=T) files container_type)
       = (Return tt, __init__ files container_type)) ∧
    Forall (λ kf, closed kf.2 = true) (_file_handles (snd (close self))).
Proof.
  intros T self. split; [apply close_returns|]. split; [|split].
  - intros n. revert self. induction n as [|n IH]; intros self; simpl; [done|].
    pose proof (close_returns self) as H.
    destruct (close self) as [r self']. simpl in H. subst r. apply IH.
  - intros files ct n. induction n as [|n IH]; simpl; [done|]. exact IH.
  - unfold close.
    assert (∀ handles, Forall (λ kf : string * TextIO, closed kf.2 = true)
                         (snd (for_handles_close handles))) as H.
    { induction handles as [|[k f] handles IH]; simpl; [constructor|].
      unfold TextIO_close. destruct (closed f) eqn:Hc; simpl.
      - destruct (for_handles_close handles). simpl in *. by constructor.
      - destruct (close_error f); simpl;
          destruct (for_handles_close handles); simpl in *; by constructor. }
    specialize (H (_file_handles self)).
    by destruct (for_handles_close _).
Qed.

End ReadSwarmFacts.

Section OpenFacts.
Import ReadSwarm.

Lemma dict_setitem_fresh {V : Type} (d : list (string * V)) (k : string) (v : V) :
  k ∉ d.*1 → dict_setitem d k v = d ++ [(k, v)].
Proof.
  induction d as [|[k' v'] d IH]; simpl; intros Hk; [done|].
  apply not_elem_of_cons in Hk as [Hne Hk].
  destruct (String.eqb_spec k' k) as [->|_]; [done|].
  by rewrite IH.
Qed.

(** Opening files that are pairwise distinct and not yet in the dictionary
    appends their handles, in the order of the files. *)
Lemma for_files_fresh (o : opener) (files : list string)
    (handles handles' : list (string * TextIO)) :
  NoDup files →
  (∀ f, f ∈ files → f ∉ handles.*1) →
  for_files o files handles = (Return tt, handles') →
  handles' = handles ++ ((λ f, (f, opened (file_at o f))) <$> files) ∧
  Forall (λ f, ∃ hf, o f = Return hf) files.
Proof.
  revert handles. induction files as [|f files IH]; intros handles Hnd Hfresh;
    simpl.
  - intros [= <-]. by rewrite app_nil_r.
  - apply NoDup_cons in Hnd as [Hf Hnd].
    unfold file_at at 1. destruct (o f) as [hf|e] eqn:Hof; [|done].
    rewrite dict_setitem_fresh by (apply Hfresh; left).
    intros H. apply IH in H as [-> Hall]; [|done|].
    + split; [by rewrite <- app_assoc|].
      constructor; [by exists hf | done].
    + intros g Hg. rewrite fmap_app. simpl.
      intros [Hin|Hin]%elem_of_app.
      * by apply (Hfresh g); [right|].
      * apply list_elem_of_singleton in Hin. by subst.
Qed.

Lemma advanced_open (s : string) (e : option exn) :
  advanced {| unread := s; closed := false; close_error := e |}
  = {| unread := snd (take_line s); closed := false; close_error := e |}.
Proof.
  unfold advanced, readline. simpl. by destruct (take_line s).
Qed.

Lemma readline_skip (s : string) (e : option exn) (k : nat) :
  Nat.iter k advanced {| unread := s; closed := false; close_error := e |}
  = {| unread := skip_lines k s; closed := false; close_error := e |}.
Proof.
  revert s. induction k as [|k IH]; intros s; [done|].
  by rewrite Nat.iter_succ_r, advanced_open, IH.
Qed.

Lemma reader_after_handles {T : Type} (k : nat) (self : ReadSwarm T) :
  reader_after k self
  = set_file_handles self
      ((λ kf, (kf.1, Nat.iter k advanced kf.2)) <$> _file_handles self).
Proof.
  revert self. induction k as [|k IH]; intros self.
  - simpl. destruct self as [fs hs ct]. unfold set_file_handles. simpl.
    f_equal. induction hs as [|[a b] hs IHhs]; simpl; [done|]. by f_equal.
  - change (reader_after (S k) self)
      with (reader_after k (snd (read_line self))).
    rewrite IH, read_line_record. unfold set_file_handles. simpl.
    f_equal. rewrite <- list_fmap_compose. apply list_fmap_ext.
    intros i [a b] _. simpl. f_equal. symmetry.
    exact (Nat.iter_succ_r k advanced b).
Qed.

(** C6, as the code has it.  For every reader constructed over pairwise
    distinct file paths, after [open()] has succeeded: there are as many
    handles as requested files; the handle dictionary lists, in the order of
    the files, each file with the handle [open] returned for it; and every
    later call of [read_line] builds its record from the items in that same
    order, item [i] of the call that follows [k] earlier calls being line [k]
    of file [i]. *)
Theorem open_keeps_file_order (T : Type) (o : opener) (files : list string)
    (container_type : option (list (option string) → result T))
    (self : ReadSwarm T) :
  NoDup files →
  open o (__init__ files container_type) = (Return tt, self) →
  length (_file_handles self) = length files ∧
  _file_handles self = (λ f, (f, opened (file_at o f))) <$> files ∧
  Forall (λ f, ∃ hf, o f = Return hf) files ∧
  ∀ k, nth_read k self
       = record_of container_type
           ((λ f, Some (nth_line k (content (file_at o f)))) <$> files).
Proof.
  intros Hnd. unfold open. simpl.
  destruct (for_files o files []) as [r handles] eqn:Hopen.
  intros [= -> <-]. simpl.
  apply for_files_fresh in Hopen as [-> Hall]; [|done|].
  2: { intros f _ Hin. by apply elem_of_nil in Hin. }
  simpl. split; [by rewrite length_fmap|]. split; [done|]. split; [done|].
  intros k. unfold nth_read. rewrite reader_after_handles, read_line_record.
  simpl. f_equal. unfold dict_values.
  rewrite <- !list_fmap_compose. apply list_fmap_ext.
  intros i f _. simpl. unfold opened. rewrite readline_skip.
  reflexivity.
Qed.

(** The reader over [a.txt] and [b.txt]. *)
Lemma open_keeps_file_order_example :
  length (_file_handles Examples.two_files_reader) = length ["a.txt"; "b.txt"] ∧
  _file_handles Examples.two_files_reader
    = (λ f, (f, opened (file_at Examples.two_files f))) <$> ["a.txt"; "b.txt"] ∧
  Forall (λ f, ∃ hf, Examples.two_files f = Return hf) ["a.txt"; "b.txt"] ∧
  ∀ k, nth_read k Examples.two_files_reader
       = record_of None
           ((λ f, Some (nth_line k (content (file_at Examples.two_files f))))
              <$> ["a.txt"; "b.txt"]).
Proof.
  apply (open_keeps_file_order Empty_set Examples.two_files
           ["a.txt"; "b.txt"] None Examples.two_files_reader).
  - refine (bool_decide_unpack (NoDup _) _). vm_compute. exact I.
  - reflexivity.
Defined.

(** C6, as the specification has it, fails: a reader asked for the same
    path twice opens the file twice, but its dictionary keeps one handle. *)
Lemma open_same_file_twice_keeps_one_handle :
  fst (open Examples.two_files
         (__init__ (T:=Empty_set) ["a.txt"; "a.txt"] None)) = Return tt ∧
  length (_file_handles Examples.same_file_twice)
  ≠ length (_files Examples.same_file_twice).
Proof. split; [reflexivity | discriminate]. Qed.

End OpenFacts.

(** ** The file-system facade *)

Section FsFacts.
Import Fs.

(** C10.  For every host and every path, [is_link] returns [False] and logs
    nothing; the host plays no part in the result, so this is also what it
    returns for a path that is a symbolic link on the host. *)
Theorem is_link_always_False :
  (∀ (fs : filesystem) (path : PathLike),
     is_link fs path = (Return false, []) ∧
     ∀ fs', is_link fs' path = is_link fs path) ∧
  os_path_islink Examples.numbered "d/l" = true ∧
  is_link Examples.numbered "d/l" = (Return false, []).
Proof. by repeat split. Qed.

(** The indices of a range with a positive step. *)
Lemma range_len_positive_step (start stop step : Z) (k : nat) :
  (0 < step)%Z →
  (k < Z.to_nat (range_len start stop step))%nat
  ↔ (start + Z.of_nat k * step < stop)%Z.
Proof.
  intros Hstep. unfold range_len.
  destruct (Z.ltb_spec 0 step); [|lia].
  destruct (Z.ltb_spec start stop).
  - pose proof (Z.div_mod (stop - start - 1) step ltac:(lia)) as Hdm.
    pose proof (Z.mod_pos_bound (stop - start - 1) step Hstep) as Hmod.
    assert (0 ≤ (stop - start - 1) / step)%Z by (apply Z.div_pos; lia).
    split; intros Hk; nia.
  - split; intros Hk; [simpl in Hk; lia | nia].
Qed.

Section NextNameFacts.
Variable get_path_parts_and_extension : string → string * string * string.
Variable join : string → string → string.
Variable fs : filesystem.
Variables path_part file_name_only separator extension : string.






End NextNameFacts.

End FsFacts.

Section NextNameClaims.
Import Fs.



End NextNameClaims.

(** * Further properties *)

(** ** The scan without recursion *)

Section NonRecursiveFacts.
Import Scan.

Lemma for_entries_non_recursive cb kw rec path_ entries (g : node → value) :
  (∀ f, f ∈ entries →
     cb (os_path_join path_ (node_name f)) (node_is_dir f) (dir_entry path_ f) kw
     = Return (g f)) →
  for_entries false cb kw rec path_ entries []
  = Return (List.filter is_not_None (g <$> entries)).
Proof.
  induction entries as [|f entries IH]; intros Hcb; [done|].
  simpl. unfold visit at 1. simpl.
  rewrite (Hcb f) by left. simpl.
  rewrite for_entries_results, IH by (intros f' Hf'; apply Hcb; by right).
  simpl. by destruct (is_not_None (g f)).
Qed.

(** X1.  Without recursion, the scan of a directory that can be listed
    calls the callback on each entry in the order of the enumeration and
    returns its results that are not [None], in that order.  Subdirectories
    are not opened: one that cannot be listed is an entry like any other. *)
Theorem non_recursive_scan_in_order
    (cb : callback) (kw : kwargs) (path_ n : string) (entries : list node)
    (g : node → value) :
  (∀ f, f ∈ entries →
     cb (os_path_join path_ (node_name f)) (node_is_dir f) (dir_entry path_ f) kw
     = Return (g f)) →
  _recursion false cb kw path_ (Dir n entries)
  = Return (List.filter is_not_None (g <$> entries)).
Proof. intros Hcb. simpl. by apply for_entries_non_recursive. Qed.

(** The directory whose subdirectory cannot be listed, without recursion. *)
Lemma non_recursive_scan_in_order_example :
  _recursion false default_callback [] "d" Examples.locked_tree
  = Return [VStr "d/x.txt"; VStr "d/sub"; VStr "d/y.log"].
Proof.
  exact (non_recursive_scan_in_order default_callback [] "d" "d"
           [File "x.txt"; BrokenDir "sub" PermissionError; File "y.log"]
           (λ f, VStr (os_path_join "d" (node_name f)))
           (λ f _, eq_refl)).
Defined.

Lemma filter_not_None_if {A : Type} (keep : A → bool) (h : A → value)
    (l : list A) :
  (∀ a, is_not_None (h a) = true) →
  List.filter is_not_None ((λ a, if keep a then h a else VNone) <$> l)
  = h <$> List.filter keep l.
Proof.
  intros Hh. induction l as [|a l IH]; [done|].
  rewrite fmap_cons. cbn [List.filter].
  destruct (keep a); cbn [is_not_None]; [|exact IH].
  by rewrite Hh, fmap_cons, IH.
Qed.

(** X2.  Without recursion, for every directory that can be listed:
    [files_only] yields the full paths of the entries that are not
    directories, [directories_only] the full paths of those that are, and
    [file_names_only] the bare names of those that are not, each in the
    order of the enumeration. *)
Theorem predefined_callbacks_select :
  ∀ (kw : kwargs) (path_ n : string) (entries : list node),
    _recursion false PredefinedCallbacks.files_only kw path_ (Dir n entries)
    = Return ((λ f, VStr (os_path_join path_ (node_name f)))
                <$> List.filter (λ f, negb (node_is_dir f)) entries) ∧
    _recursion false PredefinedCallbacks.directories_only kw path_
      (Dir n entries)
    = Return ((λ f, VStr (os_path_join path_ (node_name f)))
                <$> List.filter node_is_dir entries) ∧
    _recursion false PredefinedCallbacks.file_names_only kw path_
      (Dir n entries)
    = Return ((λ f, VStr (node_name f))
                <$> List.filter (λ f, negb (node_is_dir f)) entries).
Proof.
  intros kw path_ n entries. simpl. repeat split.
  - rewrite (for_entries_non_recursive _ _ _ _ _
               (λ f, if negb (node_is_dir f)
                     then VStr (os_path_join path_ (node_name f)) else VNone))
      by done.
    by rewrite filter_not_None_if.
  - rewrite (for_entries_non_recursive _ _ _ _ _
               (λ f, if node_is_dir f
                     then VStr (os_path_join path_ (node_name f)) else VNone))
      by done.
    by rewrite filter_not_None_if.
  - rewrite (for_entries_non_recursive _ _ _ _ _
               (λ f, if negb (node_is_dir f)
                     then VStr (node_name f) else VNone))
      by done.
    by rewrite filter_not_None_if.
Qed.

End NonRecursiveFacts.

(** ** The recursive scan *)

Section RecursiveFacts.
Import Scan.

Lemma for_entries_count kw rec path_ entries (count : node → nat) :
  Forall (λ f, node_is_dir f = true →
               ∀ p l, rec p f = Return l → length l = count f) entries →
  ∀ l, for_entries true default_callback kw rec path_ entries [] = Return l →
       length l
       = list_sum (map (λ f, S (if node_is_dir f then count f else 0)) entries).
Proof.
  induction 1 as [|f entries Hf _ IH]; simpl; intros l Hl.
  - by injection Hl as <-.
  - apply bind_Return_inv in Hl as (r & Hr & Hl).
    rewrite for_entries_results in Hl.
    apply bind_Return_inv in Hl as (l' & Hl' & [= <-]).
    apply IH in Hl'. rewrite length_app, Hl'.
    unfold visit in Hr. simpl in Hr.
    destruct (node_is_dir f) eqn:Hdir; simpl in Hr.
    + apply bind_Return_inv in Hr as (sub & Hsub & [= <-]).
      apply bind_Return_inv in Hsub as (sub' & Hsub & [= <-]).
      apply (Hf eq_refl) in Hsub. rewrite length_app. simpl. lia.
    + injection Hr as <-. simpl. lia.
Qed.

Lemma entries_below_not_dir (f : node) :
  node_is_dir f = false → entries_below f = 0.
Proof. by destruct f. Qed.

Lemma recursion_count kw d :
  ∀ path_ l, _recursion true default_callback kw path_ d = Return l →
             length l = entries_below d.
Proof.
  induction d as [n|n entries IH|n e] using node_induction;
    intros path_ l Hl; try done.
  simpl in *.
  assert (Forall (λ f, node_is_dir f = true →
                       ∀ p l', _recursion true default_callback kw p f
                               = Return l' → length l' = entries_below f)
            entries) as IH'.
  { eapply Forall_impl; [exact IH|]. intros f Hf _ p l'. apply Hf. }
  rewrite (for_entries_count kw _ path_ entries entries_below IH' l Hl).
  f_equal. apply map_ext. intros f.
  destruct (node_is_dir f) eqn:Hdir; [done|].
  by rewrite entries_below_not_dir.
Qed.

Lemma for_entries_paths kw rec path_ entries
    (paths : string → node → list string) :
  Forall (λ f, node_is_dir f = true →
               ∀ p l, rec p f = Return l → l = VStr <$> paths p f) entries →
  ∀ l, for_entries true default_callback kw rec path_ entries [] = Return l →
       l = VStr <$>
             flat_map (λ f, (if node_is_dir f
                             then paths (os_path_join path_ (node_name f)) f
                             else [])
                            ++ [os_path_join path_ (node_name f)]) entries.
Proof.
  induction 1 as [|f entries Hf _ IH]; simpl; intros l Hl.
  - by injection Hl as <-.
  - apply bind_Return_inv in Hl as (r & Hr & Hl).
    rewrite for_entries_results in Hl.
    apply bind_Return_inv in Hl as (l' & Hl' & [= <-]).
    apply IH in Hl'. rewrite fmap_app, <- Hl'. f_equal.
    unfold visit in Hr. simpl in Hr.
    destruct (node_is_dir f) eqn:Hdir; simpl in Hr.
    + apply bind_Return_inv in Hr as (sub & Hsub & [= <-]).
      apply bind_Return_inv in Hsub as (sub' & Hsub & [= <-]).
      apply (Hf eq_refl) in Hsub. by rewrite fmap_app, <- Hsub.
    + by injection Hr as <-.
Qed.

Lemma paths_below_not_dir (p : string) (f : node) :
  node_is_dir f = false → paths_below p f = [].
Proof. by destruct f. Qed.

Lemma recursion_paths kw d :
  ∀ path_ l, _recursion true default_callback kw path_ d = Return l →
             l = VStr <$> paths_below path_ d.
Proof.
  induction d as [n|n entries IH|n e] using node_induction;
    intros path_ l Hl; try done.
  simpl in *.
  assert (Forall (λ f, node_is_dir f = true →
                       ∀ p l', _recursion true default_callback kw p f
                               = Return l' → l' = VStr <$> paths_below p f)
            entries) as IH'.
  { eapply Forall_impl; [exact IH|]. intros f Hf _ p l'. apply Hf. }
  rewrite (for_entries_paths kw _ path_ entries paths_below IH' l Hl).
  f_equal. apply flat_map_ext. intros f.
  destruct (node_is_dir f) eqn:Hdir; [done|].
  by rewrite paths_below_not_dir.
Qed.

(** X3.  Whenever the recursive [scan_directory] with the default callback
    returns a list and logs nothing, the list holds the paths of the entries
    of the whole tree at the scanned path, at every depth: the entries of a
    directory in the order of its enumeration, those of a subdirectory
    before the subdirectory itself.  So it has as many results as the tree
    has entries. *)
Theorem recursive_default_scan_lists_tree
    (fallback : value) (h : host) (path : PathLike) (kw : kwargs)
    (d : node) (l : list value) :
  h (from_path_like path) = Some d →
  scan_directory fallback h path true None kw = (Return (VList l), []) →
  l = VStr <$> paths_below (from_path_like path) d ∧
  length l = entries_below d.
Proof.
  intros Hd Hscan. apply (scan_directory_returns _ _ _ _ _ _ _ _ Hd) in Hscan.
  split; [by eapply recursion_paths | by eapply recursion_count].
Qed.

(** The example tree has four entries. *)
Lemma recursive_default_scan_lists_tree_example :
  [VStr "d/x.txt"; VStr "d/y.log"; VStr "d/sub/z.txt"; VStr "d/sub"]
  = VStr <$> paths_below (from_path_like "d") Examples.tree ∧
  length [VStr "d/x.txt"; VStr "d/y.log"; VStr "d/sub/z.txt"; VStr "d/sub"]
  = entries_below Examples.tree.
Proof.
  exact (recursive_default_scan_lists_tree VNone Examples.tree_host "d" []
           Examples.tree _ eq_refl eq_refl).
Defined.

End RecursiveFacts.

Section PartitionFacts.
Import Scan Scan.PredefinedCallbacks.

Lemma app_app_Permutation {A : Type} (x y z w x' z' : list A) :
  x ≡ₚ x' ++ y → z ≡ₚ z' ++ w →
  x ++ z ≡ₚ (x' ++ z') ++ (y ++ w).
Proof.
  intros -> ->. rewrite <- !app_assoc. apply Permutation_app_head.
  rewrite !app_assoc. apply Permutation_app_tail, Permutation_app_comm.
Qed.

Lemma for_entries_partition recursive kw rec0 recf recd path_ entries :
  Forall (λ f, ∀ p l, rec0 p f = Return l →
               ∃ lf ld, recf p f = Return lf ∧ recd p f = Return ld ∧
                        l ≡ₚ lf ++ ld) entries →
  ∀ l, for_entries recursive default_callback kw rec0 path_ entries []
       = Return l →
       ∃ lf ld,
         for_entries recursive files_only kw recf path_ entries [] = Return lf ∧
         for_entries recursive directories_only kw recd path_ entries []
         = Return ld ∧
         l ≡ₚ lf ++ ld.
Proof.
  induction 1 as [|f entries Hf _ IH]; simpl; intros l Hl.
  - injection Hl as <-. by exists [], [].
  - apply bind_Return_inv in Hl as (r & Hr & Hl).
    rewrite for_entries_results in Hl.
    apply bind_Return_inv in Hl as (l' & Hl' & [= <-]).
    apply IH in Hl' as (lf' & ld' & Hlf' & Hld' & Hperm').
    unfold visit in *. simpl in *.
    destruct (recursive && node_is_dir f) eqn:Hrec; simpl in *.
    + apply andb_true_iff in Hrec as [_ Hdir]. rewrite Hdir in *. simpl in *.
      apply bind_Return_inv in Hr as (sub & Hsub & [= <-]).
      apply bind_Return_inv in Hsub as (sub' & Hsub & [= <-]).
      apply Hf in Hsub as (subf & subd & -> & -> & Hperm). simpl.
      rewrite (for_entries_results _ _ _ recf), Hlf'.
      rewrite (for_entries_results _ _ _ recd), Hld'. simpl.
      exists (subf ++ lf'), ((subd ++ [VStr (os_path_join path_ (node_name f))])
                              ++ ld').
      repeat split. apply app_app_Permutation; [|done].
      by rewrite Hperm, app_assoc.
    + injection Hr as <-.
      rewrite (for_entries_results _ _ _ recf), Hlf'.
      rewrite (for_entries_results _ _ _ recd), Hld'.
      destruct (node_is_dir f); simpl.
      * exists lf', (VStr (os_path_join path_ (node_name f)) :: ld').
        repeat split. rewrite Hperm'. apply Permutation_middle.
      * exists (VStr (os_path_join path_ (node_name f)) :: lf'), ld'.
        repeat split. simpl. by apply perm_skip.
Qed.

Lemma recursion_partition recursive kw d :
  ∀ path_ l,
    _recursion recursive default_callback kw path_ d = Return l →
    ∃ lf ld,
      _recursion recursive files_only kw path_ d = Return lf ∧
      _recursion recursive directories_only kw path_ d = Return ld ∧
      l ≡ₚ lf ++ ld.
Proof.
  induction d as [n|n entries IH|n e] using node_induction;
    intros path_ l Hl; try done.
  simpl in *. by eapply for_entries_partition.
Qed.

(** X4.  Whenever the scan of a directory with the default callback
    returns, with or without recursion, the scans with [files_only] and with
    [directories_only] return too, and together they hold exactly the results
    of the default scan: every entry is in one of the two, none in both. *)
Theorem files_and_directories_partition
    (recursive : bool) (kw : kwargs) (path_ : string) (d : node)
    (l : list value) :
  _recursion recursive default_callback kw path_ d = Return l →
  ∃ lf ld,
    _recursion recursive files_only kw path_ d = Return lf ∧
    _recursion recursive directories_only kw path_ d = Return ld ∧
    l ≡ₚ lf ++ ld.
Proof. apply recursion_partition. Qed.

(** The example tree: three files and one directory. *)
Lemma files_and_directories_partition_example :
  ∃ lf ld,
    _recursion true files_only [] "d" Examples.tree = Return lf ∧
    _recursion true directories_only [] "d" Examples.tree = Return ld ∧
    [VStr "d/x.txt"; VStr "d/y.log"; VStr "d/sub/z.txt"; VStr "d/sub"]
      ≡ₚ lf ++ ld.
Proof.
  exact (files_and_directories_partition true [] "d" Examples.tree _ eq_refl).
Defined.

End PartitionFacts.

(** ** The configurable callbacks in a scan *)

Section MoreCallbackFacts.
Import Scan Scan.ConfigurableCallbacks.

Lemma has_extension_subseteq name extensions1 extensions2 :
  extensions1 ⊆ extensions2 →
  has_extension name extensions1 → has_extension name extensions2.
Proof.
  intros Hsub (extension & front & Hin & Hname).
  exists extension, front. split; [by apply Hsub | done].
Qed.

Lemma for_extensions_subseteq entry_path dir_entry extensions1 extensions2 :
  extensions1 ⊆ extensions2 →
  for_extensions entry_path dir_entry extensions1 = VStr entry_path →
  for_extensions entry_path dir_entry extensions2 = VStr entry_path.
Proof.
  intros Hsub H1. apply for_extensions_hit.
  apply (has_extension_subseteq _ extensions1); [done|].
  destruct (has_extension_dec (name dir_entry) extensions1) as [Hyes|Hno];
    [done|].
  by rewrite (for_extensions_miss _ _ _ Hno) in H1.
Qed.

(** X5.  What [file_extensions] emits depends on the set of its extensions
    only: with more extensions, every entry that was emitted still is, and
    two sequences with the same elements, in whatever order and however
    often repeated, give callbacks that agree on every entry. *)
Theorem file_extensions_set_only
    (extensions1 extensions2 : list string) (entry_path : string)
    (is_directory : bool) (dir_entry : DirEntry) (kwargs_dict : kwargs) :
  extensions1 ⊆ extensions2 →
  (file_extensions extensions1 entry_path is_directory dir_entry kwargs_dict
   = Return (VStr entry_path) →
   file_extensions extensions2 entry_path is_directory dir_entry kwargs_dict
   = Return (VStr entry_path)) ∧
  (extensions2 ⊆ extensions1 →
   file_extensions extensions1 entry_path is_directory dir_entry kwargs_dict
   = file_extensions extensions2 entry_path is_directory dir_entry kwargs_dict).
Proof.
  intros H12. unfold file_extensions. split.
  - intros [= H]. f_equal. by eapply for_extensions_subseteq.
  - intros H21. f_equal.
    destruct (has_extension_dec (name dir_entry) extensions1) as [Hyes|Hno].
    + rewrite (for_extensions_hit _ _ _ Hyes).
      symmetry. apply for_extensions_hit. by eapply has_extension_subseteq.
    + rewrite (for_extensions_miss _ _ _ Hno).
      symmetry. apply for_extensions_miss. intros H. apply Hno.
      by eapply has_extension_subseteq.
Qed.

(** [.md] and [.txt], in two orders and with a repetition. *)
Lemma file_extensions_set_only_example :
  (file_extensions [".txt"; ".md"] "d/b.md" false (dir_entry "d" (File "b.md")) []
   = Return (VStr "d/b.md") →
   file_extensions [".md"; ".txt"; ".md"] "d/b.md" false
     (dir_entry "d" (File "b.md")) []
   = Return (VStr "d/b.md")) ∧
  ([".md"; ".txt"; ".md"] ⊆ [".txt"; ".md"] →
   file_extensions [".txt"; ".md"] "d/b.md" false (dir_entry "d" (File "b.md")) []
   = file_extensions [".md"; ".txt"; ".md"] "d/b.md" false
       (dir_entry "d" (File "b.md")) []).
Proof.
  apply (file_extensions_set_only [".txt"; ".md"] [".md"; ".txt"; ".md"]
           "d/b.md" false (dir_entry "d" (File "b.md")) []).
  intros x Hx. apply elem_of_cons in Hx as [-> | Hx].
  - right. left.
  - apply list_elem_of_singleton in Hx as ->. left.
Defined.

(** X6.  Called with no extension, [file_extensions] gives a callback that
    emits nothing, whatever the entry.  With the empty string among its
    extensions it emits every entry, directories included, since every name
    ends with the empty string. *)
Theorem file_extensions_edge_cases :
  ∀ (entry_path : string) (is_directory : bool) (dir_entry : DirEntry)
    (kwargs_dict : kwargs),
    file_extensions [] entry_path is_directory dir_entry kwargs_dict
    = Return VNone ∧
    ∀ extensions, "" ∈ extensions →
      file_extensions extensions entry_path is_directory dir_entry kwargs_dict
      = Return (VStr entry_path).
Proof.
  intros entry_path is_directory dir_entry kwargs_dict. split; [done|].
  intros extensions Hin. unfold file_extensions. f_equal.
  apply for_extensions_hit. exists "", (name dir_entry). split; [done|].
  generalize (name dir_entry). intros s.
  induction s as [|c s IH]; [done|].
  change (String c s +:+ "") with (String c (s +:+ "")). by rewrite <- IH.
Qed.

Section MatchPatternScan.
Variable Pattern : Type.
Variable get_compiled_re : string → Pattern.
Variable matches_at_start : Pattern → string → bool.
Variable pattern : string.

Let cb : callback :=
  match_pattern Pattern get_compiled_re matches_at_start pattern.


End MatchPatternScan.



End MoreCallbackFacts.

(** ** The lock-step reader: end of stream, scoped use *)

Section MoreReadSwarmFacts.
Import ReadSwarm.

Lemma take_line_empty (s : string) : fst (take_line s) = "" ↔ s = "".
Proof.
  destruct s as [|c s]; simpl; [done|].
  destruct (Ascii.eqb c "010"); [done|].
  by destruct (take_line s).
Qed.

Lemma slot_spent (f : TextIO) : slot f = None ∨ slot f = Some "" ↔ spent f.
Proof.
  unfold slot, spent. destruct (closed f); [by split; left|].
  rewrite <- take_line_empty. split.
  - intros [[=]|[= H]]. by right.
  - intros [[=]|H]. right. by rewrite H.
Qed.

Lemma advanced_spent (f : TextIO) : spent f → advanced f = f.
Proof.
  destruct f as [u c e]. unfold spent, advanced, readline. simpl.
  destruct c; [done|]. by intros [[=]| ->].
Qed.

Lemma set_file_handles_same {T : Type} (self : ReadSwarm T) :
  set_file_handles self (_file_handles self) = self.
Proof. by destruct self. Qed.

Lemma record_of_None {T : Type}
    (ct : option (list (option string) → result T)) items :
  record_of ct items = Return None ↔ any items = false.
Proof.
  unfold record_of. destruct (any items); [|done].
  split; [|done]. destruct ct as [c|]; simpl; [|done]. by destruct (c items).
Qed.

Lemma read_line_None_iff {T : Type} (self : ReadSwarm T) :
  fst (read_line self) = Return None
  ↔ Forall (λ kf, spent kf.2) (_file_handles self).
Proof.
  rewrite read_line_record. simpl.
  rewrite record_of_None, any_false_iff. unfold dict_values.
  rewrite !Forall_fmap. apply Forall_iff. intros [k f]. simpl.
  apply slot_spent.
Qed.

Lemma advanced_all_spent (handles : list (string * TextIO)) :
  Forall (λ kf, spent kf.2) handles →
  (λ kf, (kf.1, advanced kf.2)) <$> handles = handles.
Proof.
  induction 1 as [|[k f] handles Hf _ IH]; [done|].
  rewrite fmap_cons, IH. simpl in *. by rewrite advanced_spent.
Qed.

Lemma read_line_spent {T : Type} (self : ReadSwarm T) :
  Forall (λ kf, spent kf.2) (_file_handles self) →
  read_line self = (Return None, self).
Proof.
  intros Hspent. pose proof (proj2 (read_line_None_iff self) Hspent) as H.
  rewrite read_line_record in *. simpl in H. rewrite H. f_equal.
  by rewrite advanced_all_spent, set_file_handles_same.
Qed.

(** X8.  Once every handle of the reader is closed or at the end of its
    file, [read_line] returns [None] and leaves the reader as it was, so the
    end of the stream is final: however many calls follow, the reader stays
    as it is and each of them returns [None] as well. *)
Theorem end_of_stream_is_final (T : Type) (self : ReadSwarm T) :
  Forall (λ kf, closed kf.2 = true ∨ unread kf.2 = "") (_file_handles self) →
  read_line self = (Return None, self) ∧
  ∀ k, reader_after k self = self ∧ nth_read k self = Return None.
Proof.
  intros H. pose proof (read_line_spent self H) as Hself.
  split; [done|].
  assert (∀ k, reader_after k self = self) as Hk.
  { induction k as [|k IH]; [done|]. simpl. by rewrite Hself. }
  intros k. split; [done|]. unfold nth_read. by rewrite Hk, Hself.
Qed.

(** The reader over the files of three and of two lines, after three
    records. *)
Lemma end_of_stream_is_final_example :
  read_line (reader_after 3 Examples.two_files_reader)
  = (Return None, reader_after 3 Examples.two_files_reader) ∧
  ∀ k, reader_after k (reader_after 3 Examples.two_files_reader)
       = reader_after 3 Examples.two_files_reader ∧
       nth_read k (reader_after 3 Examples.two_files_reader) = Return None.
Proof.
  apply (end_of_stream_is_final Empty_set
           (reader_after 3 Examples.two_files_reader)).
  repeat (constructor; [right; reflexivity|]). constructor.
Defined.

Lemma for_handles_close_closed (handles : list (string * TextIO)) :
  Forall (λ kf, closed kf.2 = true) (snd (for_handles_close handles)).
Proof.
  induction handles as [|[k f] handles IH]; simpl; [constructor|].
  unfold TextIO_close. destruct (closed f) eqn:Hc; simpl.
  - destruct (for_handles_close handles). simpl in *. by constructor.
  - destruct (close_error f); simpl;
      destruct (for_handles_close handles); simpl in *; by constructor.
Qed.

Lemma close_closed {T : Type} (self : ReadSwarm T) :
  Forall (λ kf, closed kf.2 = true) (_file_handles (snd (close self))).
Proof.
  unfold close. pose proof (for_handles_close_closed (_file_handles self)).
  by destruct (for_handles_close _).
Qed.

(** X9.  A reader that was never opened and a reader that was closed both
    answer [read_line] with [None], without raising, and are left as they
    were: to the caller they look like a reader at the end of its files. *)
Theorem read_line_unopened_or_closed :
  ∀ (T : Type),
    (∀ files (container_type : option (list (option string) → result T)),
       read_line (__init__ files container_type)
       = (Return None, __init__ files container_type)) ∧
    (∀ self : ReadSwarm T,
       read_line (snd (close self)) = (Return None, snd (close self))).
Proof.
  intros T. split.
  - intros files ct. by apply read_line_spent.
  - intros self. apply read_line_spent.
    eapply Forall_impl; [apply close_closed|]. intros kf H. by left.
Qed.

(** X10.  In a [with] block whose [open()] succeeded, [close()] runs
    whatever the block does: afterwards every handle is closed, also when
    the block raised, and the block's result or exception is the outcome of
    the whole statement. *)
Theorem with_block_closes
    (T A : Type) (o : opener) (self opened_self : ReadSwarm T)
    (body : ReadSwarm T → result A * ReadSwarm T) :
  open o self = (Return tt, opened_self) →
  fst (with_ o self body) = fst (body opened_self) ∧
  Forall (λ kf, closed kf.2 = true) (_file_handles (snd (with_ o self body))).
Proof.
  intros Hopen. unfold with_, __enter__, __exit__. rewrite Hopen.
  destruct (body opened_self) as [rb self1] eqn:Hbody.
  pose proof (close_returns self1) as Hr.
  pose proof (close_closed self1) as Hc.
  destruct (close self1) as [rx self2]. simpl in *. by subst rx.
Qed.

(** A block that reads one record and then fails. *)
Lemma with_block_closes_example :
  fst (with_ Examples.two_files (__init__ (T:=Empty_set) ["a.txt"; "b.txt"] None)
         (λ swarm, (Raise (A:=unit) ValueError, snd (read_line swarm))))
  = fst (Raise (A:=unit) ValueError, snd (read_line Examples.two_files_reader)) ∧
  Forall (λ kf, closed kf.2 = true)
    (_file_handles
       (snd (with_ Examples.two_files
               (__init__ (T:=Empty_set) ["a.txt"; "b.txt"] None)
               (λ swarm, (Raise (A:=unit) ValueError, snd (read_line swarm)))))).
Proof.
  exact (with_block_closes Empty_set unit Examples.two_files
           (__init__ ["a.txt"; "b.txt"] None) Examples.two_files_reader
           (λ swarm, (Raise ValueError, snd (read_line swarm))) eq_refl).
Defined.

End MoreReadSwarmFacts.

(** ** The lock-step reader: what [open] leaves in the dictionary *)

Section MoreOpenFacts.
Import ReadSwarm.

Lemma dict_setitem_present {V : Type} (d : list (string * V)) (k : string)
    (v : V) :
  k ∈ d.*1 → NoDup d.*1 →
  dict_setitem d k v = (λ kv, if String.eqb kv.1 k then (k, v) else kv) <$> d.
Proof.
  induction d as [|[k' v'] d IH]; simpl; intros Hin Hnd.
  - by apply elem_of_nil in Hin.
  - apply NoDup_cons in Hnd as [Hk' Hnd].
    destruct (String.eqb_spec k' k) as [->|Hne].
    + f_equal. clear IH Hin. induction d as [|[k'' v''] d IH]; [done|].
      simpl in *. apply not_elem_of_cons in Hk' as [Hne Hk'].
      destruct (String.eqb_spec k'' k) as [->|_]; [done|].
      f_equal. apply IH; [done|]. by apply NoDup_cons in Hnd as [_ Hnd].
    + f_equal. apply IH; [|done].
      apply elem_of_cons in Hin as [->|Hin]; done.
Qed.

Lemma distinct_seen_ext (seen seen' files : list string) :
  (∀ f, f ∈ seen ↔ f ∈ seen') → distinct seen files = distinct seen' files.
Proof.
  revert seen seen'. induction files as [|f files IH]; intros seen seen' H;
    [done|].
  simpl. rewrite (bool_decide_ext _ _ (H f)).
  destruct (bool_decide (f ∈ seen')); [by apply IH|].
  f_equal. apply IH. intros g. rewrite !elem_of_app, H. done.
Qed.

Lemma assigned_keys o files handles :
  (assigned o files handles).*1 = handles.*1 ++ distinct handles.*1 files.
Proof.
  unfold assigned. rewrite fmap_app, <- !list_fmap_compose. f_equal.
  - apply list_fmap_ext. intros i [k v] _. simpl. by case_bool_decide.
  - by induction (distinct _ _) as [|? ? IH]; [|simpl; f_equal].
Qed.

Lemma for_files_assigned (o : opener) (files : list string) :
  Forall (λ f, ∃ hf, o f = Return hf) files →
  ∀ handles, NoDup handles.*1 →
    for_files o files handles = (Return tt, assigned o files handles).
Proof.
  induction 1 as [|f files [hf Hf] _ IH]; intros handles Hnd.
  - unfold assigned. simpl. rewrite app_nil_r. f_equal.
    induction handles as [|[k v] handles IHh]; [done|].
    simpl in *. apply NoDup_cons in Hnd as [_ Hnd]. by rewrite <- IHh at 1.
  - simpl. rewrite Hf.
    assert (opened hf = opened (file_at o f)) as Hfresh
      by (unfold file_at; by rewrite Hf).
    destruct (decide (f ∈ handles.*1)) as [Hin|Hnotin].
    + rewrite dict_setitem_present by done. rewrite IH.
      2: { rewrite <- list_fmap_compose.
           erewrite list_fmap_ext; [exact Hnd|].
           intros i [k v] _. simpl. by destruct (String.eqb_spec k f) as [->|]. }
      f_equal. unfold assigned. simpl.
      rewrite (bool_decide_eq_true_2 _ Hin). f_equal.
      * rewrite <- list_fmap_compose. apply list_fmap_ext.
        intros i [k v] _. simpl.
        destruct (String.eqb_spec k f) as [->|Hne]; simpl.
        -- rewrite (bool_decide_eq_true_2 (f ∈ f :: files)) by left.
           unfold fresh. rewrite Hfresh. by case_bool_decide.
        -- rewrite (bool_decide_ext (k ∈ f :: files) (k ∈ files)); [done|].
           rewrite elem_of_cons. split; [|by right]. by intros [->|?].
      * f_equal. apply distinct_seen_ext. intros g.
        rewrite <- list_fmap_compose.
        erewrite list_fmap_ext; [done|].
        intros i [k v] _. simpl. by destruct (String.eqb_spec k f) as [->|].
    + rewrite dict_setitem_fresh by done. rewrite IH.
      2: { rewrite fmap_app. simpl. apply NoDup_app. split; [done|].
           split; [|apply NoDup_singleton].
           intros g Hg ->%list_elem_of_singleton. done. }
      f_equal. unfold assigned. simpl.
      rewrite (bool_decide_eq_false_2 _ Hnotin).
      rewrite !fmap_app. simpl. rewrite <- !app_assoc. simpl. f_equal.
      * apply list_fmap_ext. intros i [k v] Hkv. simpl.
        rewrite (bool_decide_ext (k ∈ f :: files) (k ∈ files)); [done|].
        rewrite elem_of_cons.
        split; [|by right]. intros [->|?]; [|done].
        exfalso. apply Hnotin. apply list_elem_of_fmap.
        exists (f, v). split; [done|]. by eapply list_elem_of_lookup_2.
      * f_equal. unfold fresh. rewrite <- Hfresh. by case_bool_decide.
Qed.
Lemma for_files_openable (o : opener) (files : list string) :
  ∀ handles handles',
    for_files o files handles = (Return tt, handles') →
    Forall (λ f, ∃ hf, o f = Return hf) files.
Proof.
  induction files as [|f files IH]; intros handles handles' H; [constructor|].
  simpl in H. destruct (o f) as [hf|e] eqn:Hf; [|done].
  constructor; [by exists hf | by eapply IH].
Qed.

Lemma distinct_elem_of (seen files : list string) (f : string) :
  f ∈ distinct seen files ↔ f ∈ files ∧ f ∉ seen.
Proof.
  revert seen. induction files as [|g files IH]; intros seen; simpl.
  - split; [by intros ?%elem_of_nil | by intros [?%elem_of_nil _]].
  - case_bool_decide as Hg.
    + rewrite IH, elem_of_cons. split; [intros [? ?]; by split; [right|]|].
      intros [[->|?] ?]; done.
    + rewrite !elem_of_cons, IH, elem_of_app, list_elem_of_singleton.
      split.
      * intros [->|[? ?]]; [by split; [left|] | split; [by right | tauto]].
      * intros [[->|?] ?]; [by left|].
        destruct (decide (f = g)) as [->|?]; [by left | right; tauto].
Qed.

Lemma distinct_NoDup (seen files : list string) :
  NoDup seen → NoDup (seen ++ distinct seen files).
Proof.
  revert seen. induction files as [|g files IH]; intros seen Hnd; simpl.
  - by rewrite app_nil_r.
  - case_bool_decide as Hg; [by apply IH|].
    rewrite cons_middle, app_assoc. apply IH.
    apply NoDup_app. split; [done|]. split; [|apply NoDup_singleton].
    by intros f Hf ->%list_elem_of_singleton.
Qed.


Lemma distinct_all_seen (seen files : list string) :
  (∀ f, f ∈ files → f ∈ seen) → distinct seen files = [].
Proof.
  induction files as [|g files IH]; intros H; simpl; [done|].
  rewrite bool_decide_eq_true_2 by (apply H; left).
  apply IH. intros f Hf. apply H. by right.
Qed.

Lemma fresh_keys (o : opener) (l : list string) : (fresh o <$> l).*1 = l.
Proof. induction l as [|f l IH]; [done|]. simpl. by f_equal. Qed.

Lemma open_assigned {T : Type} (o : opener) (self self' : ReadSwarm T) :
  NoDup (_file_handles self).*1 →
  open o self = (Return tt, self') →
  self' = set_file_handles self (assigned o (_files self) (_file_handles self)).
Proof.
  intros Hnd. unfold open.
  destruct (for_files o (_files self) (_file_handles self)) as [r handles]
    eqn:Hfor.
  intros [= -> <-].
  pose proof (for_files_openable _ _ _ _ Hfor) as Hall.
  rewrite (for_files_assigned o _ Hall _ Hnd) in Hfor.
  by injection Hfor as <-.
Qed.



End MoreOpenFacts.

Section ReopenFacts.
Import ReadSwarm.

Lemma for_handles_close_keys (handles : list (string * TextIO)) :
  (snd (for_handles_close handles)).*1 = handles.*1.
Proof.
  induction handles as [|[k f] handles IH]; [done|]. simpl.
  destruct (TextIO_close f) as [r f'].
  assert (try_except r (λ _, Return tt) = Return tt) as ->
    by (by destruct r as [[]|e]).
  destruct (for_handles_close handles). simpl in *. by f_equal.
Qed.

Lemma assigned_all_present (o : opener) (files : list string)
    (handles : list (string * TextIO)) :
  (∀ f, f ∈ files ↔ f ∈ handles.*1) →
  assigned o files handles = fresh o <$> handles.*1.
Proof.
  intros Hkeys. unfold assigned.
  rewrite distinct_all_seen by (intros f; apply Hkeys).
  rewrite app_nil_r, <- list_fmap_compose. apply list_fmap_ext.
  intros i [k v] Hkv. simpl.
  rewrite bool_decide_eq_true_2; [done|]. apply Hkeys.
  apply list_elem_of_fmap. exists (k, v).
  split; [done | by eapply list_elem_of_lookup_2].
Qed.

(** Opening a reader whose dictionary already has a handle for every
    requested path, whatever their state. *)
Lemma reopen {T : Type} (o : opener) (files : list string)
    (container_type : option (list (option string) → result T))
    (self other : ReadSwarm T) :
  open o (__init__ files container_type) = (Return tt, self) →
  _files other = files → _container_type other = container_type →
  (_file_handles other).*1 = (_file_handles self).*1 →
  open o other = (Return tt, self).
Proof.
  intros Hopen Hfiles Hct Hkeys.
  pose proof Hopen as Hself. apply open_assigned in Hself; [|constructor].
  unfold open in Hopen. simpl in Hopen.
  destruct (for_files o files []) as [r handles] eqn:Hfor.
  injection Hopen as -> _. apply for_files_openable in Hfor.
  simpl in Hself. unfold assigned in Hself. simpl in Hself.
  assert ((_file_handles self).*1 = distinct [] files) as Hd
    by (subst self; simpl; apply fresh_keys).
  assert (NoDup (distinct [] files)) as Hnd
    by (apply (distinct_NoDup [] files); constructor).
  unfold open. rewrite Hfiles.
  rewrite (for_files_assigned o files Hfor) by (by rewrite Hkeys, Hd).
  rewrite assigned_all_present.
  - rewrite Hkeys, Hd. subst self. destruct other. simpl in *. by subst.
  - intros f. rewrite Hkeys, Hd, distinct_elem_of. split; [|tauto].
    intros Hf. split; [done|]. by intros ?%elem_of_nil.
Qed.

(** X12.  A reader that was opened can be opened again, after any number of
    calls of [read_line] and also after [close()]: every path gets a new
    handle, so the reader is again as the first [open()] left it and reads
    from the first line of every file. *)
Theorem open_again_rewinds (T : Type) (o : opener) (files : list string)
    (container_type : option (list (option string) → result T))
    (self : ReadSwarm T) (k : nat) :
  open o (__init__ files container_type) = (Return tt, self) →
  open o (reader_after k self) = (Return tt, self) ∧
  open o (snd (close (reader_after k self))) = (Return tt, self).
Proof.
  intros Hopen.
  assert (_files self = files ∧ _container_type self = container_type)
    as [Hfiles Hct].
  { unfold open in Hopen. simpl in Hopen.
    destruct (for_files o files []). by injection Hopen as _ <-. }
  rewrite reader_after_handles.
  assert (((λ kf : string * TextIO, (kf.1, Nat.iter k advanced kf.2))
             <$> _file_handles self).*1 = (_file_handles self).*1) as Hkeys.
  { rewrite <- list_fmap_compose. by apply list_fmap_ext. }
  split.
  - by apply (reopen o files container_type).
  - unfold close. simpl.
    pose proof (for_handles_close_keys
                  ((λ kf : string * TextIO, (kf.1, Nat.iter k advanced kf.2))
                     <$> _file_handles self)) as Hclose.
    destruct (for_handles_close _) as [r handles]. simpl in *.
    apply (reopen o files container_type); try done.
    simpl. by rewrite Hclose.
Qed.

(** The reader over [a.txt] and [b.txt] after two records. *)
Lemma open_again_rewinds_example :
  open Examples.two_files (reader_after 2 Examples.two_files_reader)
    = (Return tt, Examples.two_files_reader) ∧
  open Examples.two_files
    (snd (close (reader_after 2 Examples.two_files_reader)))
    = (Return tt, Examples.two_files_reader).
Proof.
  exact (open_again_rewinds Empty_set Examples.two_files ["a.txt"; "b.txt"]
           None Examples.two_files_reader 2 eq_refl).
Defined.

Lemma for_files_app (o : opener) (files1 files2 : list string) :
  ∀ handles,
    for_files o (files1 ++ files2) handles
    = match for_files o files1 handles with
      | (Return _, handles1) => for_files o files2 handles1
      | (Raise e, handles1) => (Raise e, handles1)
      end.
Proof.
  induction files1 as [|f files1 IH]; intros handles; simpl; [done|].
  destruct (o f) as [hf|e]; [apply IH | done].
Qed.

(** X13.  When [open()] fails on one of the requested files, the files
    before it have been opened and stay open: the exception leaves [open()]
    with their handles in the dictionary, none of them closed, and a [with]
    statement runs neither its block nor [close()]. *)
Theorem failed_open_leaves_handles_open
    (T A : Type) (o : opener) (before : list string) (f : string)
    (after : list string)
    (container_type : option (list (option string) → result T))
    (body : ReadSwarm T → result A * ReadSwarm T) (e : exn) :
  Forall (λ g, ∃ hf, o g = Return hf) before →
  o f = Raise e →
  let self := __init__ (before ++ f :: after) container_type in
  let left_open := set_file_handles self (fresh o <$> distinct [] before) in
  open o self = (Raise e, left_open) ∧
  with_ o self body = (Raise e, left_open) ∧
  Forall (λ kf, closed kf.2 = false) (_file_handles left_open).
Proof.
  intros Hbefore Hf self left_open.
  assert (open o self = (Raise e, left_open)) as Hopen.
  { unfold open, self, left_open. simpl. rewrite for_files_app.
    rewrite (for_files_assigned o before Hbefore []) by constructor.
    simpl. by rewrite Hf. }
  split; [done|]. split.
  - unfold with_, __enter__. by rewrite Hopen.
  - unfold left_open. simpl. apply Forall_fmap, Forall_forall. by intros.
Qed.

(** [a.txt] is there, [c.txt] is not. *)
Lemma failed_open_leaves_handles_open_example :
  open Examples.two_files (__init__ (T:=Empty_set) ["a.txt"; "c.txt"; "b.txt"] None)
    = (Raise FileNotFoundError,
       set_file_handles (__init__ ["a.txt"; "c.txt"; "b.txt"] None)
         (fresh Examples.two_files <$> distinct [] ["a.txt"])) ∧
  with_ Examples.two_files
    (__init__ (T:=Empty_set) ["a.txt"; "c.txt"; "b.txt"] None)
    (λ swarm, read_line swarm)
    = (Raise FileNotFoundError,
       set_file_handles (__init__ ["a.txt"; "c.txt"; "b.txt"] None)
         (fresh Examples.two_files <$> distinct [] ["a.txt"])) ∧
  Forall (λ kf, closed kf.2 = false)
    (_file_handles
       (set_file_handles (__init__ (T:=Empty_set) ["a.txt"; "c.txt"; "b.txt"] None)
          (fresh Examples.two_files <$> distinct [] ["a.txt"]))).
Proof.
  apply (failed_open_leaves_handles_open Empty_set _ Examples.two_files
           ["a.txt"] "c.txt" ["b.txt"] None (λ swarm, read_line swarm)
           FileNotFoundError).
  - constructor; [by eexists | constructor].
  - reflexivity.
Defined.

End ReopenFacts.

(** ** [get_next_available_file_name]: what a result means, and the edges *)

Section MoreNextNameFacts.
Import Fs.

(** The indices of a range with a negative step. *)
Lemma range_len_negative_step (start stop step : Z) (k : nat) :
  (step < 0)%Z →
  (k < Z.to_nat (range_len start stop step))%nat
  ↔ (stop < start + Z.of_nat k * step)%Z.
Proof.
  intros Hstep. unfold range_len.
  destruct (Z.ltb_spec 0 step); [lia|].
  destruct (Z.ltb_spec stop start).
  - pose proof (Z.div_mod (start - stop - 1) (- step) ltac:(lia)) as Hdm.
    pose proof (Z.mod_pos_bound (start - stop - 1) (- step) ltac:(lia)) as Hmod.
    assert (0 ≤ (start - stop - 1) / (- step))%Z by (apply Z.div_pos; lia).
    split; intros Hk; nia.
  - split; intros Hk; [simpl in Hk; lia | nia].
Qed.

Lemma for_range_found join fs path_part file_name_only separator extension
    (r : list Z) (c : string) :
  for_range join fs path_part file_name_only separator extension r
    = Return (Some c) →
  ∃ k i, r !! k = Some i ∧
    c = path_candidate join path_part file_name_only separator extension i ∧
    os_path_isfile fs c = false ∧
    ∀ j i', (j < k)%nat → r !! j = Some i' →
      os_path_isfile fs
        (path_candidate join path_part file_name_only separator extension i')
      = true.
Proof.
  induction r as [|i r IH]; simpl; [done|].
  destruct (os_path_isfile fs
              (path_candidate join path_part file_name_only separator
                 extension i)) eqn:Hi; simpl.
  - intros H. apply IH in H as (k & i' & Hk & -> & Hfree & Htaken).
    exists (S k), i'. repeat split; try done.
    intros [|j] i'' Hj Hi''; simpl in Hi''.
    + by injection Hi'' as <-.
    + apply (Htaken j); [lia | done].
  - intros [= <-]. exists 0%nat, i. repeat split; try done.
    intros j i' Hj. lia.
Qed.

Lemma range_lookup (start stop step : Z) (r : list Z) (k : nat) (i : Z) :
  range start stop step = Return r → r !! k = Some i →
  i = (start + Z.of_nat k * step)%Z ∧
  (k < Z.to_nat (range_len start stop step))%nat.
Proof.
  unfold range. destruct (Z.eqb_spec step 0); [done|]. intros [= <-] Hk.
  apply list_lookup_fmap_Some in Hk as (j & -> & Hj).
  apply lookup_seq in Hj as [-> Hlt]. done.
Qed.

(** X14.  Whenever [get_next_available_file_name] returns, for any step
    that is not 0, the path it returns is the candidate numbered
    [start_integer + k * step] for some [k]: it is not an existing file,
    every candidate before it in the range is one, and its number lies
    strictly on the near side of [max_limit] (below it for a positive step,
    above it for a negative one), so the candidate numbered [max_limit]
    itself is never returned. *)
Theorem get_next_available_file_name_result
    (get_path_parts_and_extension : string → string * string * string)
    (join : string → string → string) (fs : filesystem) (path : PathLike)
    (separator : string) (start_integer max_limit step : Z) (c : string) :
  get_next_available_file_name get_path_parts_and_extension join fs path
    separator start_integer max_limit step = Return c →
  ∃ (k : nat) (path_part file_name_only extension : string),
    get_path_parts_and_extension (from_path_like path)
      = (path_part, file_name_only, extension) ∧
    c = path_candidate join path_part file_name_only separator extension
          (start_integer + Z.of_nat k * step) ∧
    os_path_isfile fs c = false ∧
    (∀ j : nat, (j < k)%nat →
       os_path_isfile fs
         (path_candidate join path_part file_name_only separator extension
            (start_integer + Z.of_nat j * step)) = true) ∧
    step ≠ 0%Z ∧
    ((0 < step)%Z → (start_integer + Z.of_nat k * step < max_limit)%Z) ∧
    ((step < 0)%Z → (max_limit < start_integer + Z.of_nat k * step)%Z).
Proof.
  unfold get_next_available_file_name.
  destruct (get_path_parts_and_extension _) as [[path_part file_name_only]
                                                  extension].
  intros H. apply bind_Return_inv in H as (r & Hr & H).
  apply bind_Return_inv in H as ([c'|] & Hfound & H); [|done].
  injection H as ->.
  apply for_range_found in Hfound as (k & i & Hk & -> & Hfree & Htaken).
  destruct (range_lookup _ _ _ _ _ _ Hr Hk) as [-> Hlen].
  exists k, path_part, file_name_only, extension.
  repeat split; try done.
  - intros j Hj.
    assert (is_Some (r !! j)) as [i' Hi'].
    { apply lookup_lt_is_Some. apply lookup_lt_Some in Hk. lia. }
    destruct (range_lookup _ _ _ _ _ _ Hr Hi') as [-> _].
    by apply (Htaken j).
  - intros ->. done.
  - intros Hstep. by apply range_len_positive_step.
  - intros Hstep. by apply range_len_negative_step.
Qed.

(** The next name after [d/f0.txt] and [d/f1.txt]. *)
Lemma get_next_available_file_name_result_example :
  ∃ (k : nat) (path_part file_name_only extension : string),
    PathCore.get_path_parts_and_extension (from_path_like "d/f.txt")
      = (path_part, file_name_only, extension) ∧
    "d/f2.txt"
      = path_candidate PathCore.join path_part file_name_only "" extension
          (0 + Z.of_nat k * 1) ∧
    os_path_isfile Examples.numbered "d/f2.txt" = false ∧
    (∀ j : nat, (j < k)%nat →
       os_path_isfile Examples.numbered
         (path_candidate PathCore.join path_part file_name_only "" extension
            (0 + Z.of_nat j * 1)) = true) ∧
    1%Z ≠ 0%Z ∧
    ((0 < 1)%Z → (0 + Z.of_nat k * 1 < 10)%Z) ∧
    ((1 < 0)%Z → (10 < 0 + Z.of_nat k * 1)%Z).
Proof.
  exact (get_next_available_file_name_result
           PathCore.get_path_parts_and_extension PathCore.join
           Examples.numbered "d/f.txt" "" 0 10 1 "d/f2.txt" eq_refl).
Defined.

(** X15.  The edges of the range: a step of 0 raises [ValueError]; with a
    positive step and [start_integer] at or above [max_limit], and with a
    negative step and [start_integer] at or below [max_limit], the call
    raises [OverflowError] without a single candidate being tried, whatever
    files exist. *)
Theorem get_next_available_file_name_empty_range :
  ∀ (get_path_parts_and_extension : string → string * string * string)
    (join : string → string → string) (fs : filesystem) (path : PathLike)
    (separator : string) (start_integer max_limit step : Z),
    (step = 0%Z →
     get_next_available_file_name get_path_parts_and_extension join fs path
       separator start_integer max_limit step = Raise ValueError) ∧
    ((0 < step)%Z → (max_limit ≤ start_integer)%Z →
     get_next_available_file_name get_path_parts_and_extension join fs path
       separator start_integer max_limit step = Raise OverflowError) ∧
    ((step < 0)%Z → (start_integer ≤ max_limit)%Z →
     get_next_available_file_name get_path_parts_and_extension join fs path
       separator start_integer max_limit step = Raise OverflowError).
Proof.
  intros gppe join fs path separator start max_limit step.
  unfold get_next_available_file_name, range, range_len.
  destruct (gppe _) as [[path_part file_name_only] extension].
  split; [by intros ->|]. split; intros Hstep Hle.
  - destruct (Z.eqb_spec step 0); [lia|].
    destruct (Z.ltb_spec 0 step); [|lia].
    destruct (Z.ltb_spec start max_limit); [lia|]. done.
  - destruct (Z.eqb_spec step 0); [lia|].
    destruct (Z.ltb_spec 0 step); [lia|].
    destruct (Z.ltb_spec max_limit start); [lia|]. done.
Qed.

End MoreNextNameFacts.

(** ** [merge_files] *)

Section MergeFacts.
Import Fs TextFile.














End MergeFacts.

(** ** [remake_dir] *)

Section DirectoryFacts.
Import Fs.

(** X21.  Whatever the host's primitives, when removing the directory
    fails, [remake_dir] does not go on to create it: [os.makedirs] is not
    called, the host is left as the failed removal left it, the error goes
    through the decorator of [rmdir] once, and, unless the decorator's policy
    raises the error again, the result is [False].  In particular
    [remake_dir] does not create a directory that was not there. *)
Theorem remake_dir_stops_when_removal_fails
    (host_state : Type)
    (rmtree os_rmdir : host_state → string → result unit * host_state)
    (makedirs : host_state → string → bool → result unit * host_state)
    (default_policy : OnError) (st st1 : host_state) (path : PathLike)
    (e : exn) :
  rmtree st (from_path_like path) = (Raise e, st1) →
  remake_dir host_state rmtree os_rmdir makedirs default_policy st path
  = (catch default_policy false (Raise e), st1) ∧
  (default_policy ≠ RAISE →
   fst (fst (remake_dir host_state rmtree os_rmdir makedirs default_policy
               st path))
   = Return false).
Proof.
  intros Hrm. unfold remake_dir, rmdir. rewrite Hrm.
  by destruct default_policy.
Qed.

(** A directory that is not there is not made. *)
Lemma remake_dir_stops_when_removal_fails_example :
  remake_dir (gset string) MoreExamples.remove_directory
    MoreExamples.remove_directory MoreExamples.make_directory LOG
    {["d/old"]} "d/new"
  = (catch LOG false (Raise FileNotFoundError), {["d/old"]}) ∧
  (LOG ≠ RAISE →
   fst (fst (remake_dir (gset string) MoreExamples.remove_directory
               MoreExamples.remove_directory MoreExamples.make_directory LOG
               {["d/old"]} "d/new"))
   = Return false).
Proof.
  exact (remake_dir_stops_when_removal_fails (gset string)
           MoreExamples.remove_directory MoreExamples.remove_directory
           MoreExamples.make_directory LOG {["d/old"]} {["d/old"]} "d/new"
           FileNotFoundError eq_refl).
Defined.

End DirectoryFacts.

(** ** A recursive scan that returns has listed every directory *)

Section ListedFacts.
Import Scan.

Lemma for_entries_listed cb kw rec path_ entries :
  Forall (λ f, ∀ p l, rec p f = Return l → listable f = true) entries →
  ∀ l, for_entries true cb kw rec path_ entries [] = Return l →
       forallb listable entries = true.
Proof.
  induction 1 as [|f entries Hf _ IH]; simpl; intros l Hl; [done|].
  apply bind_Return_inv in Hl as (r & Hr & Hl).
  rewrite for_entries_results in Hl.
  apply bind_Return_inv in Hl as (l' & Hl' & _).
  rewrite (IH _ Hl'), andb_true_r.
  unfold visit in Hr. simpl in Hr.
  destruct (node_is_dir f) eqn:Hdir; simpl in Hr.
  - apply bind_Return_inv in Hr as (sub & Hsub & _).
    apply bind_Return_inv in Hsub as (sub' & Hsub & _).
    by eapply Hf.
  - by destruct f.
Qed.

Lemma recursion_listed cb kw d :
  ∀ path_ l, _recursion true cb kw path_ d = Return l → listable d = true.
Proof.
  induction d as [n|n entries IH|n e] using node_induction;
    intros path_ l Hl; try done.
  simpl in *. by eapply for_entries_listed.
Qed.

(** X23.  A recursive scan that returns has listed every directory of the
    tree: with any callback, when the traversal returns a list, and so when
    [scan_directory] returns one and logs nothing, there is no directory
    anywhere below that cannot be listed, so no subtree is silently left
    out.  When a directory somewhere below cannot be listed, the recursive
    [scan_directory] logs an error and returns the fallback value. *)
Theorem recursive_scan_skips_nothing
    (fallback : value) (h : host) (path : PathLike)
    (on_entry_found_callback : option callback) (kw : kwargs) (d : node) :
  h (from_path_like path) = Some d →
  (∀ path_ l,
     _recursion true (callback_or_default on_entry_found_callback) kw path_ d
     = Return l →
     listable d = true) ∧
  (∀ l, scan_directory fallback h path true on_entry_found_callback kw
        = (Return (VList l), []) →
        listable d = true) ∧
  (listable d = false →
   ∃ e, scan_directory fallback h path true on_entry_found_callback kw
        = (Return fallback, [e])).
Proof.
  intros Hd. split; [apply recursion_listed|]. split.
  - intros l Hscan. apply (scan_directory_returns _ _ _ _ _ _ _ _ Hd) in Hscan.
    by eapply recursion_listed.
  - intros Hlist. unfold scan_directory, at_path. rewrite Hd. simpl.
    destruct (_recursion true _ kw (from_path_like path) d) as [l|e] eqn:Hl;
      simpl; [|by exists e].
    apply recursion_listed in Hl. congruence.
Qed.

(** The tree whose subdirectory cannot be listed. *)
Lemma recursive_scan_skips_nothing_example :
  (∀ path_ l,
     _recursion true (callback_or_default None) [] path_ Examples.locked_tree
     = Return l →
     listable Examples.locked_tree = true) ∧
  (∀ l, scan_directory VNone Examples.locked_host "d" true None []
        = (Return (VList l), []) →
        listable Examples.locked_tree = true) ∧
  (listable Examples.locked_tree = false →
   ∃ e, scan_directory VNone Examples.locked_host "d" true None []
        = (Return VNone, [e])).
Proof.
  exact (recursive_scan_skips_nothing VNone Examples.locked_host "d" None []
           Examples.locked_tree eq_refl).
Defined.

End ListedFacts.
